(** * Autoencoder communications link: channel model and BER sweep

    A shallow embedding of [autoencoder.py]: the hyperparameters, the message
    source [create_data_set], the Rayleigh fading function [rayleigh] used as
    a layer of the model, and the evaluation sweep that produces the BER
    curve.

    Conventions.
    - Python integers are [Z]; NumPy float64 values are idealised as the
      real numbers [R] (no rounding error, no infinities); the one place
      where the script can produce a NaN, the mean of an empty array, is
      made explicit in [float_result].
    - A 1-D array is a [list R], a 2-D array a list of rows.
    - The process-wide NumPy generator is an explicit [RandomState] that is
      threaded through every drawing function; the generator of the Keras
      backend, from which the [GaussianNoise] layer draws, is kept beside
      it as a stream and a position of its own.
    - The trained network is an external collaborator: [predict] is a
      parameter of the sweep, taken as the array it returns. *)

From Stdlib Require Import Reals Lra Lia ZArith.
From stdpp Require Import base list gmap strings.

(** ** Exceptions and the generator monad *)

Inductive PyError : Type :=
  | ValueError
  | IndexError
  | KeyError.

(** Result of a pure NumPy operation that may raise. *)
Definition Res (A : Type) : Type := (PyError + A)%type.

Abbreviation array1 := (list R).
Abbreviation array2 := (list (list R)).

(** The random state of the process.  The first three sources are the
    variates [np.random] will hand out: raw integers for [randint] (indexed
    by position and by the exclusive upper bound asked for), unit-scale
    Rayleigh variates and standard normal variates; their positions count
    how many variates of each kind have been consumed so far.  The last
    source and position are the standard normal variates of the Keras
    backend, a generator of its own that [np.random] neither feeds nor
    reads. *)
Record RandomState : Type := mkRandomState {
  randint_src : nat -> Z -> Z;
  rayleigh_src : nat -> R;
  randn_src : nat -> R;
  randint_pos : nat;
  rayleigh_pos : nat;
  randn_pos : nat;
  keras_src : nat -> R;
  keras_pos : nat
}.

(** NumPy's contract for [randint(high)]: the value lies in [[0, high)]. *)
Definition randint_contract (g : RandomState) : Prop :=
  forall (i : nat) (high : Z), (0 < high)%Z ->
    (0 <= randint_src g i high < high)%Z.

(** The generator after [n] more variates of one kind have been handed out. *)
Definition consume_randint (n : nat) (g : RandomState) : RandomState :=
  mkRandomState (randint_src g) (rayleigh_src g) (randn_src g)
    (randint_pos g + n) (rayleigh_pos g) (randn_pos g)
    (keras_src g) (keras_pos g).

Definition consume_rayleigh (n : nat) (g : RandomState) : RandomState :=
  mkRandomState (randint_src g) (rayleigh_src g) (randn_src g)
    (randint_pos g) (rayleigh_pos g + n) (randn_pos g)
    (keras_src g) (keras_pos g).

Definition consume_randn (n : nat) (g : RandomState) : RandomState :=
  mkRandomState (randint_src g) (rayleigh_src g) (randn_src g)
    (randint_pos g) (rayleigh_pos g) (randn_pos g + n)
    (keras_src g) (keras_pos g).

Definition consume_keras (n : nat) (g : RandomState) : RandomState :=
  mkRandomState (randint_src g) (rayleigh_src g) (randn_src g)
    (randint_pos g) (rayleigh_pos g) (randn_pos g)
    (keras_src g) (keras_pos g + n).

Definition Rand (A : Type) : Type := RandomState -> PyError + (A * RandomState).

Definition ret {A} (a : A) : Rand A := fun g => inr (a, g).

Definition bind {A B} (m : Rand A) (f : A -> Rand B) : Rand B :=
  fun g => match m g with
           | inl e => inl e
           | inr (a, g') => f a g'
           end.

Definition lift {A} (r : Res A) : Rand A :=
  fun g => match r with
           | inl e => inl e
           | inr a => inr (a, g)
           end.

Notation "x <- m ;; f" := (bind m (fun x => f))
  (at level 100, m at next level, right associativity).

(** [mapM]: run [f] on every element from left to right. *)
Fixpoint mapM_rand {A B} (f : A -> Rand B) (l : list A) : Rand (list B) :=
  match l with
  | [] => ret []
  | a :: l' => b <- f a ;; bs <- mapM_rand f l' ;; ret (b :: bs)
  end.

Fixpoint mapM_res {A B} (f : A -> Res B) (l : list A) : Res (list B) :=
  match l with
  | [] => inr []
  | a :: l' =>
      match f a with
      | inl e => inl e
      | inr b => match mapM_res f l' with
                 | inl e => inl e
                 | inr bs => inr (b :: bs)
                 end
      end
  end.

(** ** The NumPy primitives the script uses *)

(** [np.zeros(n)]. *)
Definition np_zeros (n : Z) : Res array1 :=
  if (n <? 0)%Z then inl ValueError else inr (replicate (Z.to_nat n) 0%R).

(** [row[idx] = v] on a 1-D array: negative indices count from the end,
    anything outside [[-len, len)] raises [IndexError]. *)
Definition setitem (row : array1) (idx : Z) (v : R) : Res array1 :=
  let len := Z.of_nat (length row) in
  if ((0 <=? idx) && (idx <? len))%Z then inr (<[Z.to_nat idx := v]> row)
  else if ((- len <=? idx) && (idx <? 0))%Z
       then inr (<[Z.to_nat (idx + len) := v]> row)
       else inl IndexError.

(** [np.random.randint(high)]: one integer, one position consumed. *)
Definition np_random_randint (high : Z) : Rand Z :=
  fun g =>
    if (high <=? 0)%Z then inl ValueError
    else inr (randint_src g (randint_pos g) high, consume_randint 1 g).

(** The vector handed out by [np.random.rayleigh(scale, n)] in state [g]:
    each variate is the scale times a unit-scale Rayleigh variate (NumPy
    computes [scale * sqrt(-2 log(1 - u))]). *)
Definition rayleigh_vector (scale : R) (n : nat) (g : RandomState) : array1 :=
  map (fun j => (scale * rayleigh_src g (rayleigh_pos g + j))%R) (seq 0 n).

(** [np.random.rayleigh(scale, size)]: [size] variates consumed; a negative
    scale or size raises. *)
Definition np_random_rayleigh (scale : R) (size : Z) : Rand array1 :=
  fun g =>
    if Rlt_dec scale 0 then inl ValueError
    else if (size <? 0)%Z then inl ValueError
    else inr (rayleigh_vector scale (Z.to_nat size) g,
              consume_rayleigh (Z.to_nat size) g).

(** The array handed out by [np.random.randn(n, m)] in state [g]: standard
    normal variates, filled in row-major order. *)
Definition randn_matrix (n m : nat) (g : RandomState) : array2 :=
  map (fun i => map (fun j => randn_src g (randn_pos g + (i * m + j))) (seq 0 m))
      (seq 0 n).

(** [np.random.randn(d0, d1)]: [d0 * d1] variates consumed; a negative
    dimension raises. *)
Definition np_random_randn (d0 d1 : Z) : Rand array2 :=
  fun g =>
    if ((d0 <? 0) || (d1 <? 0))%Z then inl ValueError
    else inr (randn_matrix (Z.to_nat d0) (Z.to_nat d1) g,
              consume_randn (Z.to_nat d0 * Z.to_nat d1) g).

(** Broadcasting of a binary operation along one axis: equal lengths pair
    up, a length-one side is repeated, anything else raises. *)
Definition broadcast1 {A B C} (f : A -> B -> C) (a : list A) (b : list B)
  : Res (list C) :=
  if (length a =? length b)%nat then inr (zip_with f a b)
  else match a, b with
       | [x], _ => inr (map (f x) b)
       | _, [y] => inr (map (fun x => f x y) a)
       | _, _ => inl ValueError
       end.

(** Broadcasting of a binary operation on two 2-D arrays. *)
Definition broadcast2 {A B C} (f : A -> B -> C)
    (x : list (list A)) (y : list (list B)) : Res (list (list C)) :=
  if (length x =? length y)%nat
  then mapM_res (fun p => broadcast1 f p.1 p.2) (zip x y)
  else match x, y with
       | [r], _ => mapM_res (fun s => broadcast1 f r s) y
       | _, [s] => mapM_res (fun r => broadcast1 f r s) x
       | _, _ => inl ValueError
       end.

(** A 1-D array used against a 2-D array is first viewed as a single row. *)
Definition as_row {A} (v : list A) : list (list A) := [v].

(** [np.round]: to the nearest integer, ties to the even neighbour. *)
Definition np_round (x : R) : R :=
  let f := Int_part x in
  let d := (x - IZR f)%R in
  if Rlt_dec d (1/2) then IZR f
  else if Rlt_dec (1/2) d then IZR (f + 1)
  else if Z.even f then IZR f else IZR (f + 1).

(** [np.not_equal] on two scalars. *)
Definition np_not_equal (a b : R) : bool :=
  if Req_dec_T a b then false else true.

(** The value of a float64 that may be NaN. *)
Inductive float_result : Type :=
  | Finite (r : R)
  | NaN.

Definition count_true (b : list (list bool)) : nat :=
  length (filter (fun v => v = true) (concat b)).

(** [np.mean] of a boolean array: the fraction of [True] entries; the mean
    of an empty array is NaN. *)
Definition np_mean (b : list (list bool)) : float_result :=
  match length (concat b) with
  | O => NaN
  | S n => Finite (INR (count_true b) / INR (S n))
  end.

(** [np.linspace(start, stop, num)] with the end point included. *)
Definition np_linspace (start stop : R) (num : Z) : Res array1 :=
  if (num <? 0)%Z then inl ValueError
  else inr (map (fun i => (start + INR i * ((stop - start) / (IZR num - 1)))%R)
                (seq 0 (Z.to_nat num))).

(** ** Hyperparameters and constants *)

(** The module-level constants of the script, gathered so that statements
    can range over configurations; [paper] holds the values of the source. *)
Record Hyper : Type := mkHyper {
  M : Z;
  num_channels : Z;
  Eb_No_dB : Z;
  size_train_data : Z;
  size_val_data : Z;
  size_test_data : Z;
  start : Z;
  end_ : Z
}.

Definition paper : Hyper :=
  {| M := 16; num_channels := 2; Eb_No_dB := 7;
     size_train_data := 50000; size_val_data := 5000; size_test_data := 50000;
     start := -15; end_ := 15 |}.

(** The derived constants are floating-point expressions; they are
    meaningful when [k / num_channels] is a positive number. *)
Definition valid_hyper (h : Hyper) : Prop :=
  (2 <= M h)%Z /\ (1 <= num_channels h)%Z.

Section Constants.
Variable h : Hyper.

(** [k = int(np.log2(M))]. *)
Definition k : Z := Z.log2 (M h).

(** [R = k / num_channels], the communication rate. *)
Definition rate_R : R := (IZR k / IZR (num_channels h))%R.

(** [Eb_No = np.power(10, Eb_No_dB / 10)]. *)
Definition Eb_No : R := Rpower 10 (IZR (Eb_No_dB h) / 10).

Definition beta_variance : R := (1 / (2 * rate_R * Eb_No))%R.
End Constants.

(** ** Message source *)

Section MessageSource.
Variable h : Hyper.

(** One pass of the loop body of [create_data_set]. *)
Definition create_row : Rand array1 :=
  row <- lift (np_zeros (M h)) ;;
  idx <- np_random_randint (M h) ;;
  lift (setitem row idx 1%R).

(** The loop [for i in range(size)], with [data] the list built so far. *)
Fixpoint create_rows (n : nat) (data : array2) : Rand array2 :=
  match n with
  | O => ret data
  | S n' => row <- create_row ;; create_rows n' (data ++ [row])
  end.

Definition create_data_set (size : Z) : Rand array2 :=
  create_rows (Z.to_nat size) [].
End MessageSource.

(** ** Channel model used as layers of the network *)

(** The output of a Gaussian noise layer in state [g]: to every entry, the
    mean 0 plus the standard deviation times a standard normal variate of
    its own, taken from the Keras generator in row-major order. *)
Definition add_layer_noise (stddev : R) (g : RandomState) (y : array2) : array2 :=
  imap (fun i row =>
          imap (fun j v =>
                  (v + (0 + stddev * keras_src g (keras_pos g + (i * length row + j))))%R)
               row)
       y.

Section Channel.
Variable h : Hyper.

(** [rayleigh(x)], the function wrapped by the [Lambda] layer. *)
Definition rayleigh (x : array2) : Rand array2 :=
  r <- np_random_rayleigh (beta_variance h) (num_channels h) ;;
  f <- lift (broadcast2 Rmult x (as_row r)) ;;
  lift (broadcast2 Rmult x (map (map (fun v => (1 - v)%R)) f)).

(** [rayleigh_shape(input_shape)]. *)
Definition rayleigh_shape (input_shape : list Z) : list Z := input_shape.

(** The Keras layer [GaussianNoise(stddev)] in training mode: it adds
    [random_normal(shape(x), mean = 0, stddev)] to its input, drawn from
    the generator of the backend; [np.random] is left as it was.  (Outside
    training the layer returns its input.) *)
Definition GaussianNoise (stddev : R) (x : array2) : Rand array2 :=
  fun g => inr (add_layer_noise stddev g x, consume_keras (length (concat x)) g).

(** The two channel layers in the order [build_model] adds them. *)
Definition channel_layers (x : array2) : Rand array2 :=
  y <- rayleigh x ;;
  GaussianNoise (sqrt (beta_variance h)) y.
End Channel.

(** ** Evaluation sweep *)

Section Sweep.
Variable h : Hyper.
(** [autoencoder.predict], the trained network, as the array it returns.
    (What Keras does to the generator while it runs the network is not
    part of the model: the statements about a sweep point hold from
    whatever state line 214 finds the generator in.) *)
Variable predict : array2 -> array2.
(** The global [test_data]. *)
Variable test_data : array2.

(** [range_SNR_dB = list(np.linspace(start, end, 2*(end-start)+1))]. *)
Definition range_SNR_dB : Res array1 :=
  np_linspace (IZR (start h)) (IZR (end_ h)) (2 * (end_ h - start h) + 1).

(** Lines 213-221: fading and noise applied to [signal] at one point. *)
Definition sweep_channel (snr : R) (signal : array2) : Rand array2 :=
  fading <- np_random_rayleigh (beta_variance h) (M h) ;;
  signal <- lift (broadcast2 Rmult signal
                    (as_row (map (fun v => (1 - v)%R) fading))) ;;
  let mean_noise := 0%R in
  let std_noise := sqrt (1 / (2 * rate_R h * snr)) in
  n <- np_random_randn (size_test_data h) (M h) ;;
  let noise := map (map (fun v => (mean_noise + std_noise * v)%R)) n in
  lift (broadcast2 Rplus signal noise).

(** The body of the loop for one value of [range_SNR_dB]. *)
Definition sweep_point (snr_dB : R) : Rand float_result :=
  let snr := Rpower 10 (snr_dB / 10) in
  let predictions := predict test_data in
  let signal := predictions in
  signal <- sweep_channel snr signal ;;
  let signal := map (map np_round) signal in
  errors <- lift (broadcast2 np_not_equal signal test_data) ;;
  ret (np_mean errors).

(** The whole loop: [ber[i]] for every [i], in order. *)
Definition sweep_ber : Rand (list float_result) :=
  range <- lift range_SNR_dB ;;
  mapM_rand sweep_point range.

(** The points handed to [plt.plot(range_SNR_dB, ber)]. *)
Definition ber_curve : Rand (list (R * float_result)) :=
  ber <- sweep_ber ;;
  range <- lift range_SNR_dB ;;
  ret (zip range ber).
End Sweep.

(** ** The script from the data sets to the curve *)

(** [d[key]] on a dictionary: a missing key raises [KeyError]. *)
Definition getitem {V} (d : gmap string V) (key : string) : Res V :=
  match d !! key with
  | Some v => inr v
  | None => inl KeyError
  end.

Section Script.
Variable h : Hyper.
(** [autoencoder.fit(x, y, validation_data = ...)], the external training
    routine: it may consume the generator (it shuffles) and it leaves
    behind the trained network, whose forward pass is [predict], and the
    [History] object, whose [history] dictionary maps the name of a metric
    to its values, one per epoch. *)
Variable fit :
  array2 -> array2 -> array2 * array2 ->
  Rand ((array2 -> array2) * gmap string (list R)).

(** Lines 175-226: the three data sets, the training, the four reads of
    the history, the sweep. *)
Definition script : Rand (array2 * list (R * float_result)) :=
  train_data <- create_data_set h (size_train_data h) ;;
  val_data <- create_data_set h (size_val_data h) ;;
  test_data <- create_data_set h (size_test_data h) ;;
  history <- fit train_data train_data (val_data, val_data) ;;
  let predict := history.1 in
  let history_dict := history.2 in
  train_accuracy <- lift (getitem history_dict "acc") ;;
  train_loss <- lift (getitem history_dict "loss") ;;
  valid_accuracy <- lift (getitem history_dict "val_acc") ;;
  valid_loss <- lift (getitem history_dict "val_loss") ;;
  curve <- ber_curve h predict test_data ;;
  ret (test_data, curve).
End Script.

(** * Vocabulary of the statements

    Shapes, entries, the steps of a sweep point named one by one, the
    channel as the specification words it, and the concrete inputs used to
    instantiate the statements. *)

(** A row is one-hot over [m] categories: it has [m] entries, one of them
    is 1 and every other one is 0. *)
Definition one_hot (m : Z) (row : array1) : Prop :=
  length row = Z.to_nat m /\
  exists i : nat, (i < length row)%nat /\
    forall j : nat, (j < length row)%nat ->
      row !! j = Some (if decide (j = i) then 1%R else 0%R).

(** The row that [create_row] builds when the generator hands out [idx]. *)
Definition message_row (m : Z) (idx : Z) : array1 :=
  <[Z.to_nat idx := 1%R]> (replicate (Z.to_nat m) 0%R).

(** The rows appended by [n] passes of the loop. *)
Definition drawn_rows (h : Hyper) (g : RandomState) (n : nat) : array2 :=
  map (fun i => message_row (M h) (randint_src g (randint_pos g + i) (M h)))
      (seq 0 n).

(** A concrete generator: [randint] cycles through the admissible values,
    every Rayleigh variate is 1 and every normal variate is 0. *)
Definition g0 : RandomState :=
  {| randint_src := fun i high => (Z.of_nat i mod high)%Z;
     rayleigh_src := fun _ => 1%R;
     randn_src := fun _ => 0%R;
     randint_pos := 0; rayleigh_pos := 0; randn_pos := 0;
     keras_src := fun _ => 0%R; keras_pos := 0 |}.

(** A 2-D array has [n] rows of [m] entries each. *)
Definition has_shape {A} (a : list (list A)) (n m : nat) : Prop :=
  length a = n /\ Forall (fun row => length row = m) a.

(** Two 2-D arrays have the same shape. *)
Definition same_shape {A B} (a : list (list A)) (b : list (list B)) : Prop :=
  Forall2 (fun r s => length r = length s) a b.

(** What [rayleigh] computes on one row, given the drawn vector. *)
Definition fade_train_row (r row : array1) : array1 :=
  zip_with (fun v rj => (v * (1 - v * rj))%R) row r.


(** The entry in row [i], column [j] of a 2-D array. *)
Definition entry {A} (a : list (list A)) (i j : nat) : option A :=
  match a !! i with
  | Some row => row !! j
  | None => None
  end.

(** Fading: every row is multiplied, entry by entry, by one minus the
    fading vector. *)
Definition fade_step (fading : array1) (signal : array2) : array2 :=
  map (fun row => zip_with (fun v f => (v * (1 - f))%R) row fading) signal.

(** Gaussian noise of mean 0 and the given standard deviation, from an
    array of standard normal variates. *)
Definition gaussian_noise (std_noise : R) (n : array2) : array2 :=
  map (map (fun v => (0 + std_noise * v)%R)) n.

(** Adding the noise, entry by entry. *)
Definition noise_step (noise : array2) (signal : array2) : array2 :=
  zip_with (zip_with Rplus) signal noise.

(** Rounding every entry. *)
Definition round_step (signal : array2) : array2 := map (map np_round) signal.

(** Entry-wise disagreement with the labels, averaged. *)
Definition error_rate (labels : array2) (signal : array2) : float_result :=
  np_mean (zip_with (zip_with np_not_equal) signal labels).

(** The standard deviation of the evaluation noise at a linear [snr]. *)
Definition std_noise_at (h : Hyper) (snr : R) : R :=
  sqrt (1 / (2 * rate_R h * snr)).

(** A test set of the configured size whose labels are all [v]. *)
Definition constant_data (h : Hyper) (v : R) : array2 :=
  replicate (Z.to_nat (size_test_data h)) (replicate (Z.to_nat (M h)) v).

(** The Rayleigh scale a sweep point would use if the fading followed the
    swept SNR the way [beta_variance] follows the design [Eb_No]. *)
Definition beta_variance_at (h : Hyper) (snr : R) : R :=
  (1 / (2 * rate_R h * snr))%R.

(** Fading and noise at a sweep point as the specification words them:
    both scaled to the swept SNR. *)
Definition sweep_channel_as_specified (h : Hyper) (snr : R) (signal : array2)
  : Rand array2 :=
  fun g =>
    inr (noise_step
           (gaussian_noise (std_noise_at h snr)
              (randn_matrix (Z.to_nat (size_test_data h)) (Z.to_nat (M h)) g))
           (fade_step (rayleigh_vector (beta_variance_at h snr) (Z.to_nat (M h)) g)
              signal),
         consume_randn (Z.to_nat (size_test_data h) * Z.to_nat (M h))
           (consume_rayleigh (Z.to_nat (M h)) g)).

(** The SNR values of the sweep: [start], [start + 1/2], ... *)
Definition half_dB_steps (h : Hyper) : array1 :=
  map (fun i => (IZR (start h) + INR i / 2)%R)
      (seq 0 (Z.to_nat (2 * (end_ h - start h) + 1))).

(** NumPy's contract for Rayleigh variates: they are not negative. *)
Definition rayleigh_contract (g : RandomState) : Prop :=
  forall i : nat, (0 <= rayleigh_src g i)%R.

(** A generator whose Rayleigh and normal variates are all 0: fading and
    noise are switched off. *)
Definition silent (g : RandomState) : Prop :=
  forall i : nat, rayleigh_src g i = 0%R /\ randn_src g i = 0%R.

Definition g_silent : RandomState :=
  {| randint_src := fun i high => (Z.of_nat i mod high)%Z;
     rayleigh_src := fun _ => 0%R;
     randn_src := fun _ => 0%R;
     randint_pos := 0; rayleigh_pos := 0; randn_pos := 0;
     keras_src := fun _ => 0%R; keras_pos := 0 |}.

(** The Keras generator hands out zeros only: the noise layer is switched
    off. *)
Definition keras_silent (g : RandomState) : Prop :=
  forall i : nat, keras_src g i = 0%R.

(** A configuration whose sweep runs from +15 dB down to -15 dB. *)
Definition reversed : Hyper :=
  {| M := 16; num_channels := 2; Eb_No_dB := 7;
     size_train_data := 50000; size_val_data := 5000; size_test_data := 50000;
     start := 15; end_ := -15 |}.

(** The generator as sweep point number [i] finds it. *)
Definition at_point (h : Hyper) (i : nat) (g : RandomState) : RandomState :=
  consume_randn (i * (Z.to_nat (size_test_data h) * Z.to_nat (M h)))
    (consume_rayleigh (i * Z.to_nat (M h)) g).



(** A training routine whose history names the accuracy ["accuracy"], not
    ["acc"]. *)
Definition fit_renamed (x y : array2) (validation_data : array2 * array2)
  : Rand ((array2 -> array2) * gmap string (list R)) :=
  ret (fun a => a,
       <["accuracy" := [1%R]]> (<["loss" := [0%R]]>
         (<["val_accuracy" := [1%R]]> (<["val_loss" := [0%R]]> ∅)))).

(** The error rate of sweep point number [i], at [snr_dB], when the sweep
    starts from the generator [g]. *)
Definition point_ber (h : Hyper) (predict : array2 -> array2)
    (test_data : array2) (g : RandomState) (i : nat) (snr_dB : R) : float_result :=
  error_rate test_data
    (round_step
       (noise_step
          (gaussian_noise (std_noise_at h (Rpower 10 (snr_dB / 10)))
             (randn_matrix (Z.to_nat (size_test_data h)) (Z.to_nat (M h))
                (at_point h i g)))
          (fade_step
             (rayleigh_vector (beta_variance h) (Z.to_nat (M h)) (at_point h i g))
             (predict test_data)))).

(** The history holds the four metrics read on lines 191-194. *)
Definition history_keys (history_dict : gmap string (list R)) : Prop :=
  is_Some (history_dict !! "acc") /\ is_Some (history_dict !! "loss") /\
  is_Some (history_dict !! "val_acc") /\ is_Some (history_dict !! "val_loss").


(** * Properties *)

(** ** The derived constants *)

Lemma k_paper : k paper = 4%Z.
Proof. reflexivity. Qed.

Lemma k_pos (h : Hyper) : valid_hyper h -> (1 <= k h)%Z.
Proof.
  intros [HM _]. unfold k.
  change 1%Z with (Z.log2 2). by apply Z.log2_le_mono.
Qed.

Lemma rate_R_pos (h : Hyper) : valid_hyper h -> (0 < rate_R h)%R.
Proof.
  intros Hv. pose proof (k_pos h Hv) as Hk. destruct Hv as [_ Hn].
  unfold rate_R. apply Rdiv_lt_0_compat; apply IZR_lt; lia.
Qed.

Lemma Rpower_pos (x y : R) : (0 < Rpower x y)%R.
Proof. unfold Rpower. apply exp_pos. Qed.

Lemma Eb_No_pos (h : Hyper) : (0 < Eb_No h)%R.
Proof. apply Rpower_pos. Qed.

Lemma beta_variance_pos (h : Hyper) : valid_hyper h -> (0 < beta_variance h)%R.
Proof.
  intros Hv. unfold beta_variance.
  apply Rdiv_lt_0_compat; [lra|].
  pose proof (rate_R_pos h Hv). pose proof (Eb_No_pos h). nra.
Qed.

Lemma valid_paper : valid_hyper paper.
Proof. split; simpl; lia. Qed.

Lemma rate_R_paper : rate_R paper = 2%R.
Proof. unfold rate_R. rewrite k_paper. simpl. lra. Qed.

(** C7: with the constants of the script ([Eb_No_dB = 7], [num_channels = 2],
    [M = 16], hence [k = 4] and [R = 4/2]) the computed [beta_variance] is
    [1 / (2 * (4/2) * 10^0.7)]. *)
Theorem beta_variance_paper :
  k paper = 4%Z /\
  rate_R paper = (4 / 2)%R /\
  beta_variance paper = (1 / (2 * (4 / 2) * Rpower 10 0.7))%R.
Proof.
  split; [reflexivity|]. split.
  - unfold rate_R. rewrite k_paper. reflexivity.
  - unfold beta_variance, rate_R, Eb_No. rewrite k_paper. simpl.
    replace (7 / 10)%R with 0.7%R by lra. reflexivity.
Qed.

(** ** Generator bookkeeping *)

Lemma consume_randint_add (n m : nat) (g : RandomState) :
  consume_randint m (consume_randint n g) = consume_randint (n + m) g.
Proof. unfold consume_randint; simpl. f_equal. lia. Qed.

Lemma randint_contract_consume (n : nat) (g : RandomState) :
  randint_contract g -> randint_contract (consume_randint n g).
Proof. intros Hg i high Hh. apply (Hg i high Hh). Qed.

(** ** Message source *)

Lemma message_row_one_hot (m idx : Z) :
  (0 <= idx < m)%Z -> one_hot m (message_row m idx).
Proof.
  intros Hidx. unfold one_hot, message_row.
  rewrite length_insert, length_replicate. split; [done|].
  exists (Z.to_nat idx). split; [lia|].
  intros j Hj. destruct (decide (j = Z.to_nat idx)) as [->|Hne].
  - apply list_lookup_insert_eq. rewrite length_replicate. lia.
  - rewrite list_lookup_insert_ne by done.
    by apply lookup_replicate_2.
Qed.

Lemma create_row_spec (h : Hyper) (g : RandomState) :
  randint_contract g -> (0 < M h)%Z ->
  create_row h g =
    inr (message_row (M h) (randint_src g (randint_pos g) (M h)),
         consume_randint 1 g).
Proof.
  intros Hg HM. unfold create_row, bind, lift, np_zeros, np_random_randint.
  destruct (Z.ltb_spec (M h) 0) as [?|_]; [lia|].
  destruct (Z.leb_spec (M h) 0) as [?|_]; [lia|].
  unfold setitem. rewrite length_replicate.
  pose proof (Hg (randint_pos g) (M h) HM) as Hr.
  destruct (Z.leb_spec 0 (randint_src g (randint_pos g) (M h))) as [_|?]; [|lia].
  destruct (Z.ltb_spec (randint_src g (randint_pos g) (M h))
              (Z.of_nat (Z.to_nat (M h)))) as [_|?]; [|lia].
  reflexivity.
Qed.

Lemma create_rows_spec (h : Hyper) (n : nat) :
  forall (data : array2) (g : RandomState),
    randint_contract g -> (0 < M h)%Z ->
    create_rows h n data g = inr (data ++ drawn_rows h g n, consume_randint n g).
Proof.
  induction n as [|n IH]; intros data g Hg HM.
  - simpl. unfold ret, drawn_rows. simpl. rewrite app_nil_r.
    destruct g; unfold consume_randint; simpl. do 2 f_equal. f_equal. lia.
  - simpl. unfold bind. rewrite create_row_spec by done.
    rewrite IH by (try apply randint_contract_consume; done).
    rewrite consume_randint_add. do 2 f_equal.
    rewrite <- app_assoc. f_equal. unfold drawn_rows. simpl.
    rewrite Nat.add_0_r. f_equal.
    rewrite <- seq_shift, map_map. apply map_ext. intros i.
    do 2 f_equal. lia.
Qed.

Lemma drawn_rows_one_hot (h : Hyper) (g : RandomState) (n : nat) :
  randint_contract g -> (0 < M h)%Z -> Forall (one_hot (M h)) (drawn_rows h g n).
Proof.
  intros Hg HM. unfold drawn_rows. apply Forall_map, Forall_forall.
  intros i _. apply message_row_one_hot, Hg, HM.
Qed.

Lemma create_data_set_spec (h : Hyper) (size : Z) (g : RandomState) :
  randint_contract g -> (0 < M h)%Z ->
  create_data_set h size g =
    inr (drawn_rows h g (Z.to_nat size), consume_randint (Z.to_nat size) g).
Proof.
  intros Hg HM. unfold create_data_set. by rewrite create_rows_spec.
Qed.

Lemma g0_contract : randint_contract g0.
Proof. intros i high Hh. simpl. apply Z.mod_pos_bound, Hh. Qed.

(** C6: for every positive size, [create_data_set] returns [size] rows and
    every row is a length-[M] vector with exactly one entry equal to 1 and
    all other entries equal to 0. *)
Theorem create_data_set_one_hot (h : Hyper) (size : Z) (g : RandomState) :
  (0 < size)%Z -> (0 < M h)%Z -> randint_contract g ->
  exists (data : array2) (g' : RandomState),
    create_data_set h size g = inr (data, g') /\
    length data = Z.to_nat size /\
    Forall (one_hot (M h)) data.
Proof.
  intros _ HM Hg. eexists _, _. split; [by apply create_data_set_spec|].
  split; [|by apply drawn_rows_one_hot].
  unfold drawn_rows. by rewrite length_map, length_seq.
Qed.

Lemma create_data_set_one_hot_witness :
  exists (data : array2) (g' : RandomState),
    create_data_set paper 3 g0 = inr (data, g') /\
    length data = Z.to_nat 3 /\
    Forall (one_hot (M paper)) data.
Proof.
  apply (create_data_set_one_hot paper 3 g0);
    [lia | simpl; lia | apply g0_contract].
Defined.

(** C9, as claimed: a non-positive count is rejected with an error.  On the
    code it is not: [range(size)] is empty, the loop body never runs and
    the empty data set is returned. *)
Lemma create_data_set_nonpositive_count :
  create_data_set paper 0 g0 = inr ([], g0) /\
  create_data_set paper (-3) g0 = inr ([], g0) /\
  ~ (exists e : PyError, create_data_set paper 0 g0 = inl e).
Proof.
  split; [reflexivity|]. split; [reflexivity|].
  intros [e He]. discriminate He.
Qed.

(** C9, amended: [create_data_set] validates nothing; for every integer
    count it returns without error, with [count] rows when the count is
    positive and with no row at all when it is not. *)
Theorem create_data_set_count (h : Hyper) (size : Z) (g : RandomState) :
  (0 < M h)%Z -> randint_contract g ->
  exists (data : array2) (g' : RandomState),
    create_data_set h size g = inr (data, g') /\
    ((0 < size)%Z -> Z.of_nat (length data) = size) /\
    ((size <= 0)%Z -> data = [] /\ g' = g).
Proof.
  intros HM Hg. eexists _, _. split; [by apply create_data_set_spec|].
  split.
  - intros Hs. unfold drawn_rows. rewrite length_map, length_seq. lia.
  - intros Hs. replace (Z.to_nat size) with 0%nat by lia. split; [done|].
    destruct g; unfold consume_randint; simpl. f_equal. lia.
Qed.

Lemma create_data_set_count_witness :
  exists (data : array2) (g' : RandomState),
    create_data_set paper 5 g0 = inr (data, g') /\
    ((0 < 5)%Z -> Z.of_nat (length data) = 5%Z) /\
    ((5 <= 0)%Z -> data = [] /\ g' = g0).
Proof.
  apply (create_data_set_count paper 5 g0); [simpl; lia | apply g0_contract].
Defined.

(** ** Broadcasting *)

Lemma mapM_res_inr {A B} (f : A -> Res B) (f' : A -> B) (l : list A) :
  Forall (fun a => f a = inr (f' a)) l -> mapM_res f l = inr (map f' l).
Proof.
  induction 1 as [|a l Ha _ IH]; simpl; [done|].
  by rewrite Ha, IH.
Qed.

Lemma broadcast1_same_length {A B C} (f : A -> B -> C) (a : list A) (b : list B) :
  length a = length b -> broadcast1 f a b = inr (zip_with f a b).
Proof.
  intros Hl. unfold broadcast1. by rewrite Hl, Nat.eqb_refl.
Qed.

Lemma broadcast2_same_shape {A B C} (f : A -> B -> C)
    (x : list (list A)) (y : list (list B)) :
  same_shape x y -> broadcast2 f x y = inr (zip_with (zip_with f) x y).
Proof.
  intros Hs. unfold broadcast2.
  rewrite (Forall2_length _ _ _ Hs), Nat.eqb_refl.
  rewrite (mapM_res_inr _ (fun p => zip_with f p.1 p.2)).
  - f_equal. induction Hs as [|r s x y _ _ IH]; simpl; [done|]. by rewrite IH.
  - induction Hs as [|r s x y Hrs _ IH]; simpl; constructor; [|done].
    by apply broadcast1_same_length.
Qed.

Lemma broadcast2_row {A B C} (f : A -> B -> C) (x : list (list A)) (v : list B) :
  Forall (fun row => length row = length v) x ->
  broadcast2 f x (as_row v) = inr (map (fun row => zip_with f row v) x).
Proof.
  intros Hx. unfold broadcast2, as_row.
  destruct x as [|r [|r' x']]; simpl.
  - done.
  - inversion_clear Hx as [|? ? Hr _]. by rewrite broadcast1_same_length.
  - apply (mapM_res_inr (fun row => broadcast1 f row v)
             (fun row => zip_with f row v) (r :: r' :: x')).
    eapply Forall_impl; [exact Hx|]. intros row Hrow.
    by apply broadcast1_same_length.
Qed.

Lemma has_shape_same_shape {A B} (a : list (list A)) (b : list (list B)) n m :
  has_shape a n m -> has_shape b n m -> same_shape a b.
Proof.
  intros [Hla Ha] [Hlb Hb]. unfold same_shape.
  apply Forall2_same_length_lookup. split; [congruence|].
  intros i r s Hr Hs.
  rewrite Forall_lookup in Ha. rewrite Forall_lookup in Hb.
  rewrite (Ha i r Hr), (Hb i s Hs). done.
Qed.

Lemma has_shape_map_rows {A B} (F : list A -> list B) (a : list (list A)) n m m' :
  (forall row, length row = m -> length (F row) = m') ->
  has_shape a n m -> has_shape (map F a) n m'.
Proof.
  intros HF [Hl Ha]. split; [by rewrite length_map|].
  apply Forall_map. eapply Forall_impl; [exact Ha|]. exact HF.
Qed.

Lemma has_shape_zip_with {A B C} (f : A -> B -> C)
    (a : list (list A)) (b : list (list B)) n m :
  has_shape a n m -> has_shape b n m ->
  has_shape (zip_with (zip_with f) a b) n m.
Proof.
  intros [Hla Ha] [Hlb Hb]. split.
  - rewrite length_zip_with. lia.
  - rewrite Forall_lookup. intros i row Hrow.
    apply lookup_zip_with_Some in Hrow as (r & s & -> & Hr & Hs).
    rewrite Forall_lookup in Ha. rewrite Forall_lookup in Hb.
    rewrite length_zip_with, (Ha i r Hr), (Hb i s Hs). lia.
Qed.

Lemma length_concat_shape {A} (a : list (list A)) n m :
  has_shape a n m -> length (concat a) = (n * m)%nat.
Proof.
  intros [<- Ha]. induction Ha as [|r a Hr _ IH]; simpl; [done|].
  rewrite length_app, IH, Hr. done.
Qed.

(** ** Drawing *)

Lemma length_rayleigh_vector scale n g : length (rayleigh_vector scale n g) = n.
Proof. unfold rayleigh_vector. by rewrite length_map, length_seq. Qed.

Lemma lookup_rayleigh_vector scale n g (j : nat) :
  (j < n)%nat ->
  rayleigh_vector scale n g !! j = Some (scale * rayleigh_src g (rayleigh_pos g + j))%R.
Proof.
  intros Hj. unfold rayleigh_vector.
  rewrite list_lookup_fmap, lookup_seq_lt by done. done.
Qed.

Lemma randn_matrix_shape n m g : has_shape (randn_matrix n m g) n m.
Proof.
  unfold randn_matrix. split; [by rewrite length_map, length_seq|].
  apply Forall_map, Forall_forall. intros i _. by rewrite length_map, length_seq.
Qed.

Lemma np_random_rayleigh_spec (scale : R) (size : Z) (g : RandomState) :
  (0 <= scale)%R -> (0 <= size)%Z ->
  np_random_rayleigh scale size g =
    inr (rayleigh_vector scale (Z.to_nat size) g, consume_rayleigh (Z.to_nat size) g).
Proof.
  intros Hs Hn. unfold np_random_rayleigh.
  destruct (Rlt_dec scale 0) as [?|_]; [lra|].
  destruct (Z.ltb_spec size 0) as [?|_]; [lia|]. done.
Qed.

Lemma np_random_randn_spec (d0 d1 : Z) (g : RandomState) :
  (0 <= d0)%Z -> (0 <= d1)%Z ->
  np_random_randn d0 d1 g =
    inr (randn_matrix (Z.to_nat d0) (Z.to_nat d1) g,
         consume_randn (Z.to_nat d0 * Z.to_nat d1) g).
Proof.
  intros H0 H1. unfold np_random_randn.
  destruct (Z.ltb_spec d0 0) as [?|_]; [lia|].
  destruct (Z.ltb_spec d1 0) as [?|_]; [lia|]. done.
Qed.

(** ** The fading layer *)

Lemma zip_with_fade_train (row r : array1) :
  zip_with Rmult row (map (fun v => (1 - v)%R) (zip_with Rmult row r))
  = fade_train_row r row.
Proof.
  unfold fade_train_row. revert r.
  induction row as [|v row IH]; intros [|rj r]; simpl; [done..|].
  by rewrite IH.
Qed.

Lemma rayleigh_spec (h : Hyper) (x : array2) (g : RandomState) :
  valid_hyper h ->
  Forall (fun row => length row = Z.to_nat (num_channels h)) x ->
  rayleigh h x g =
    inr (map (fade_train_row
                (rayleigh_vector (beta_variance h) (Z.to_nat (num_channels h)) g)) x,
         consume_rayleigh (Z.to_nat (num_channels h)) g).
Proof.
  intros Hv Hx. unfold rayleigh, bind.
  rewrite np_random_rayleigh_spec;
    [|apply Rlt_le, beta_variance_pos, Hv | destruct Hv; lia].
  set (r := rayleigh_vector _ _ g). unfold lift.
  assert (Hr : Forall (fun row : list R => length row = length r) x).
  { eapply Forall_impl; [exact Hx|]. intros row ->.
    unfold r. by rewrite length_rayleigh_vector. }
  rewrite broadcast2_row by exact Hr.
  rewrite map_map.
  rewrite broadcast2_same_shape.
  - do 2 f_equal.
    induction x as [|row x IH]; simpl; [done|].
    inversion_clear Hx. inversion_clear Hr.
    rewrite IH by done. by rewrite zip_with_fade_train.
  - unfold same_shape. apply Forall2_fmap_r, Forall_Forall2_diag.
    eapply Forall_impl; [exact Hr|]. intros row Hrow. simpl in *.
    rewrite length_map, length_zip_with. lia.
Qed.

Lemma length_fade_train_row (r row : array1) :
  length row = length r -> length (fade_train_row r row) = length row.
Proof. intros Hl. unfold fade_train_row. rewrite length_zip_with. lia. Qed.

Lemma GaussianNoise_same_shape (stddev : R) (x : array2) (g : RandomState) :
  exists (y : array2) (g' : RandomState),
    GaussianNoise stddev x g = inr (y, g') /\ same_shape x y.
Proof.
  eexists _, _. split; [reflexivity|].
  unfold same_shape, add_layer_noise. apply Forall2_same_length_lookup.
  split; [by rewrite length_imap|].
  intros i r s Hr Hs. rewrite list_lookup_imap, Hr in Hs. simpl in Hs.
  injection Hs as <-. by rewrite length_imap.
Qed.

(** C8: for every batch size and every number of channels, a batch of
    channel-symbol vectors keeps its shape through the fading stage
    ([rayleigh], as also declared by [rayleigh_shape]) and through the
    additive-noise stage ([GaussianNoise]). *)
Theorem channel_preserves_shape (h : Hyper) (x : array2) (g : RandomState) :
  valid_hyper h ->
  Forall (fun row => length row = Z.to_nat (num_channels h)) x ->
  (exists (y : array2) (g' : RandomState),
     rayleigh h x g = inr (y, g') /\ same_shape x y) /\
  (forall input_shape : list Z, rayleigh_shape input_shape = input_shape) /\
  (forall (stddev : R) (y : array2) (g1 : RandomState),
     exists (z : array2) (g2 : RandomState),
       GaussianNoise stddev y g1 = inr (z, g2) /\ same_shape y z) /\
  (exists (z : array2) (g' : RandomState),
     channel_layers h x g = inr (z, g') /\ same_shape x z).
Proof.
  intros Hv Hx.
  assert (Hfade : same_shape x
            (map (fade_train_row
               (rayleigh_vector (beta_variance h) (Z.to_nat (num_channels h)) g)) x)).
  { unfold same_shape. apply Forall2_fmap_r, Forall_Forall2_diag.
    eapply Forall_impl; [exact Hx|]. intros row Hrow. simpl.
    rewrite length_fade_train_row; [done|].
    by rewrite length_rayleigh_vector. }
  split; [|split; [|split]].
  - eexists _, _. split; [by apply rayleigh_spec|]. exact Hfade.
  - done.
  - intros stddev y g1. apply GaussianNoise_same_shape.
  - unfold channel_layers, bind. rewrite rayleigh_spec by done.
    destruct (GaussianNoise_same_shape (sqrt (beta_variance h))
                (map (fade_train_row
                   (rayleigh_vector (beta_variance h)
                      (Z.to_nat (num_channels h)) g)) x)
                (consume_rayleigh (Z.to_nat (num_channels h)) g))
      as (z & g' & Hz & Hsz).
    exists z, g'. split; [exact Hz|].
    unfold same_shape in *.
    apply Forall2_same_length_lookup. split.
    + rewrite (Forall2_length _ _ _ Hfade). by apply Forall2_length in Hsz.
    + intros i r s Hr Hs.
      destruct (Forall2_lookup_l _ _ _ _ _ Hfade Hr) as (m & Hm & Hrm).
      destruct (Forall2_lookup_l _ _ _ _ _ Hsz Hm) as (s' & Hs' & Hms).
      rewrite Hs in Hs'. injection Hs' as <-. congruence.
Qed.

Lemma channel_preserves_shape_witness :
  (exists (y : array2) (g' : RandomState),
     rayleigh paper [[1; 2]; [3; 4]; [5; 6]]%R g0 = inr (y, g') /\
     same_shape [[1; 2]; [3; 4]; [5; 6]]%R y) /\
  (forall input_shape : list Z, rayleigh_shape input_shape = input_shape) /\
  (forall (stddev : R) (y : array2) (g1 : RandomState),
     exists (z : array2) (g2 : RandomState),
       GaussianNoise stddev y g1 = inr (z, g2) /\ same_shape y z) /\
  (exists (z : array2) (g' : RandomState),
     channel_layers paper [[1; 2]; [3; 4]; [5; 6]]%R g0 = inr (z, g') /\
     same_shape [[1; 2]; [3; 4]; [5; 6]]%R z).
Proof.
  apply (channel_preserves_shape paper [[1; 2]; [3; 4]; [5; 6]]%R g0).
  - apply valid_paper.
  - repeat constructor.
Defined.

(** ** The design point *)






Lemma entry_map_rows {A B} (F : list A -> list B) (a : list (list A)) i j row :
  a !! i = Some row -> entry (map F a) i j = F row !! j.
Proof. intros Hi. unfold entry. by rewrite list_lookup_fmap, Hi. Qed.

Lemma lookup_fade_train_row (r row : array1) (j : nat) (v f : R) :
  row !! j = Some v -> r !! j = Some f ->
  fade_train_row r row !! j = Some (v * (1 - v * f))%R.
Proof.
  intros Hv Hf. unfold fade_train_row. by rewrite lookup_zip_with, Hv, Hf.
Qed.



(** ** The steps of one sweep point *)

Lemma fade_step_shape fading signal n m :
  length fading = m -> has_shape signal n m -> has_shape (fade_step fading signal) n m.
Proof.
  intros Hf. apply has_shape_map_rows. intros row Hrow.
  rewrite length_zip_with. lia.
Qed.

Lemma gaussian_noise_shape std_noise n m g :
  has_shape (gaussian_noise std_noise (randn_matrix n m g)) n m.
Proof.
  eapply has_shape_map_rows; [|apply randn_matrix_shape].
  intros row Hrow. by rewrite length_map.
Qed.

Lemma sweep_channel_spec (h : Hyper) (snr : R) (signal : array2) (g : RandomState) :
  valid_hyper h -> (0 <= size_test_data h)%Z ->
  has_shape signal (Z.to_nat (size_test_data h)) (Z.to_nat (M h)) ->
  sweep_channel h snr signal g =
    inr (noise_step
           (gaussian_noise (std_noise_at h snr)
              (randn_matrix (Z.to_nat (size_test_data h)) (Z.to_nat (M h)) g))
           (fade_step (rayleigh_vector (beta_variance h) (Z.to_nat (M h)) g) signal),
         consume_randn (Z.to_nat (size_test_data h) * Z.to_nat (M h))
           (consume_rayleigh (Z.to_nat (M h)) g)).
Proof.
  intros Hv Hsize Hs. unfold sweep_channel, bind.
  rewrite np_random_rayleigh_spec;
    [|apply Rlt_le, beta_variance_pos, Hv | destruct Hv; lia].
  unfold lift at 1.
  rewrite broadcast2_row.
  2:{ destruct Hs as [_ Hs]. eapply Forall_impl; [exact Hs|].
      intros row Hrow. simpl in *.
      by rewrite length_map, length_rayleigh_vector. }
  rewrite np_random_randn_spec; [|done | destruct Hv; lia].
  unfold lift.
  set (faded := map _ signal).
  assert (Hfaded : faded = fade_step
            (rayleigh_vector (beta_variance h) (Z.to_nat (M h)) g) signal).
  { unfold faded, fade_step. apply map_ext. intros row.
    by rewrite zip_with_fmap_r. }
  rewrite Hfaded. rewrite broadcast2_same_shape; [reflexivity|].
  eapply has_shape_same_shape.
  - apply fade_step_shape; [apply length_rayleigh_vector | exact Hs].
  - apply (gaussian_noise_shape (sqrt (1 / (2 * rate_R h * snr)))).
Qed.

Lemma lookup_randn_matrix n m g (i j : nat) :
  (i < n)%nat -> (j < m)%nat ->
  entry (randn_matrix n m g) i j = Some (randn_src g (randn_pos g + (i * m + j))).
Proof.
  intros Hi Hj. unfold entry, randn_matrix.
  rewrite list_lookup_fmap, lookup_seq_lt by done. simpl.
  rewrite list_lookup_fmap, lookup_seq_lt by done. done.
Qed.

(** The entry of the signal after fading and noise, before rounding. *)
Lemma entry_sweep_signal (scale std_noise : R) (signal : array2)
    (g : RandomState) (n m i j : nat) (row : array1) (v : R) :
  has_shape signal n m ->
  signal !! i = Some row -> row !! j = Some v ->
  entry (noise_step (gaussian_noise std_noise (randn_matrix n m g))
           (fade_step (rayleigh_vector scale m g) signal)) i j
  = Some (v * (1 - scale * rayleigh_src g (rayleigh_pos g + j))
          + (0 + std_noise * randn_src g (randn_pos g + (i * m + j))))%R.
Proof.
  intros [Hn Hm] Hi Hj.
  assert (Hin : (i < n)%nat) by (rewrite <- Hn; by eapply lookup_lt_Some).
  assert (Hjm : (j < m)%nat).
  { rewrite Forall_lookup in Hm. rewrite <- (Hm i row Hi).
    by eapply lookup_lt_Some. }
  pose proof (lookup_randn_matrix n m g i j Hin Hjm) as Hz.
  unfold entry in *. unfold noise_step, gaussian_noise, fade_step.
  rewrite lookup_zip_with, !list_lookup_fmap, Hi. simpl.
  destruct (randn_matrix n m g !! i) as [nrow|] eqn:Hnrow; [|done]. simpl.
  rewrite lookup_zip_with, lookup_zip_with, Hj. simpl.
  rewrite lookup_rayleigh_vector by done. simpl.
  rewrite list_lookup_fmap, Hz. done.
Qed.

Lemma sweep_signal_shape (scale std_noise : R) (signal : array2)
    (g : RandomState) (n m : nat) :
  has_shape signal n m ->
  has_shape (noise_step (gaussian_noise std_noise (randn_matrix n m g))
               (fade_step (rayleigh_vector scale m g) signal)) n m.
Proof.
  intros Hs. apply has_shape_zip_with.
  - apply fade_step_shape; [apply length_rayleigh_vector | exact Hs].
  - apply gaussian_noise_shape.
Qed.

Lemma sweep_point_spec (h : Hyper) (predict : array2 -> array2)
    (test_data : array2) (snr_dB : R) (g : RandomState) :
  valid_hyper h -> (0 <= size_test_data h)%Z ->
  has_shape test_data (Z.to_nat (size_test_data h)) (Z.to_nat (M h)) ->
  has_shape (predict test_data) (Z.to_nat (size_test_data h)) (Z.to_nat (M h)) ->
  sweep_point h predict test_data snr_dB g =
    inr (error_rate test_data
           (round_step
              (noise_step
                 (gaussian_noise (std_noise_at h (Rpower 10 (snr_dB / 10)))
                    (randn_matrix (Z.to_nat (size_test_data h)) (Z.to_nat (M h)) g))
                 (fade_step (rayleigh_vector (beta_variance h) (Z.to_nat (M h)) g)
                    (predict test_data)))),
         consume_randn (Z.to_nat (size_test_data h) * Z.to_nat (M h))
           (consume_rayleigh (Z.to_nat (M h)) g)).
Proof.
  intros Hv Hsize Ht Hp. unfold sweep_point, bind.
  rewrite sweep_channel_spec by done. unfold lift.
  rewrite broadcast2_same_shape; [reflexivity|].
  eapply has_shape_same_shape; [|exact Ht].
  eapply has_shape_map_rows; [|by apply sweep_signal_shape].
  intros row Hrow. by rewrite length_map.
Qed.

Lemma constant_data_shape (h : Hyper) (v : R) :
  has_shape (constant_data h v) (Z.to_nat (size_test_data h)) (Z.to_nat (M h)).
Proof.
  split; [apply length_replicate|].
  apply Forall_replicate, length_replicate.
Qed.

Lemma row_major_index_inj (m i j i' j' : nat) :
  (j < m)%nat -> (j' < m)%nat -> (i * m + j = i' * m + j')%nat ->
  i = i' /\ j = j'.
Proof.
  intros Hj Hj' Heq. apply (Nat.div_mod_unique m); [done..|].
  by rewrite !(Nat.mul_comm m).
Qed.

(** C10: at a sweep point exactly one fading vector is drawn; it has [M]
    entries (the message count, not [num_channels]) and entry [j] of it
    fades column [j] of every test row alike, while the Gaussian noise added
    to an entry comes from a normal variate of its own. *)
Theorem sweep_point_single_fading_vector (h : Hyper)
    (predict : array2 -> array2) (test_data : array2) (snr_dB : R)
    (g : RandomState) :
  valid_hyper h -> (0 <= size_test_data h)%Z ->
  has_shape test_data (Z.to_nat (size_test_data h)) (Z.to_nat (M h)) ->
  has_shape (predict test_data) (Z.to_nat (size_test_data h)) (Z.to_nat (M h)) ->
  exists (fading : array1) (signal : array2) (g' : RandomState),
    fading = rayleigh_vector (beta_variance h) (Z.to_nat (M h)) g /\
    length fading = Z.to_nat (M h) /\
    sweep_channel h (Rpower 10 (snr_dB / 10)) (predict test_data) g
      = inr (signal, g') /\
    sweep_point h predict test_data snr_dB g
      = inr (error_rate test_data (round_step signal), g') /\
    rayleigh_pos g' = (rayleigh_pos g + Z.to_nat (M h))%nat /\
    randn_pos g'
      = (randn_pos g + Z.to_nat (size_test_data h) * Z.to_nat (M h))%nat /\
    (forall (i j : nat) (row : array1) (p f : R),
       predict test_data !! i = Some row -> row !! j = Some p ->
       fading !! j = Some f ->
       entry signal i j =
         Some (p * (1 - f)
               + (0 + std_noise_at h (Rpower 10 (snr_dB / 10))
                      * randn_src g (randn_pos g + (i * Z.to_nat (M h) + j))))%R) /\
    (forall i j i' j' : nat,
       (j < Z.to_nat (M h))%nat -> (j' < Z.to_nat (M h))%nat ->
       (i * Z.to_nat (M h) + j = i' * Z.to_nat (M h) + j')%nat ->
       i = i' /\ j = j').
Proof.
  intros Hv Hsize Ht Hp. eexists _, _, _.
  split; [reflexivity|].
  split; [apply length_rayleigh_vector|].
  split; [by apply sweep_channel_spec|].
  split; [by apply sweep_point_spec|].
  split; [done|]. split; [done|]. split.
  - intros i j row p f Hi Hj Hf.
    rewrite (entry_sweep_signal _ _ _ _ _ _ _ _ _ _ Hp Hi Hj).
    assert (Hjm : (j < Z.to_nat (M h))%nat).
    { apply lookup_lt_Some in Hf. by rewrite length_rayleigh_vector in Hf. }
    rewrite lookup_rayleigh_vector in Hf by done. by injection Hf as <-.
  - apply row_major_index_inj.
Qed.

Lemma sweep_point_single_fading_vector_witness :
  exists (fading : array1) (signal : array2) (g' : RandomState),
    fading = rayleigh_vector (beta_variance paper) (Z.to_nat (M paper)) g0 /\
    length fading = Z.to_nat (M paper) /\
    sweep_channel paper (Rpower 10 (7 / 10)) ((fun x => x) (constant_data paper 0)) g0
      = inr (signal, g') /\
    sweep_point paper (fun x => x) (constant_data paper 0) 7 g0
      = inr (error_rate (constant_data paper 0) (round_step signal), g') /\
    rayleigh_pos g' = (rayleigh_pos g0 + Z.to_nat (M paper))%nat /\
    randn_pos g'
      = (randn_pos g0 + Z.to_nat (size_test_data paper) * Z.to_nat (M paper))%nat /\
    (forall (i j : nat) (row : array1) (p f : R),
       (fun x => x) (constant_data paper 0) !! i = Some row -> row !! j = Some p ->
       fading !! j = Some f ->
       entry signal i j =
         Some (p * (1 - f)
               + (0 + std_noise_at paper (Rpower 10 (7 / 10))
                      * randn_src g0 (randn_pos g0 + (i * Z.to_nat (M paper) + j))))%R) /\
    (forall i j i' j' : nat,
       (j < Z.to_nat (M paper))%nat -> (j' < Z.to_nat (M paper))%nat ->
       (i * Z.to_nat (M paper) + j = i' * Z.to_nat (M paper) + j')%nat ->
       i = i' /\ j = j').
Proof.
  apply (sweep_point_single_fading_vector paper (fun x => x)
           (constant_data paper 0) 7 g0).
  - apply valid_paper.
  - simpl. lia.
  - apply constant_data_shape.
  - apply constant_data_shape.
Defined.

(** ** Fading and noise at a sweep point *)

Lemma gaussian_noise_g0 (std_noise : R) (n m : nat) :
  gaussian_noise std_noise (randn_matrix n m g0) = randn_matrix n m g0.
Proof.
  unfold gaussian_noise, randn_matrix. rewrite map_map.
  apply map_ext. intros i. rewrite map_map. apply map_ext. intros j.
  simpl. lra.
Qed.

Lemma constant_data_entry (h : Hyper) (v : R) :
  (0 < size_test_data h)%Z -> (0 < M h)%Z ->
  exists row : array1, constant_data h v !! 0%nat = Some row /\ row !! 0%nat = Some v.
Proof.
  intros Hn Hm. exists (replicate (Z.to_nat (M h)) v). unfold constant_data.
  split; apply lookup_replicate_2; lia.
Qed.

(** C4, as claimed: the fading applied at a sweep point is scaled to the
    swept SNR.  On the code it is not: with noise variates all 0, the signal
    that leaves the channel is the same at -15 dB and at +15 dB, and at
    +15 dB it differs from the signal faded with the SNR-scaled parameter. *)
Lemma sweep_fading_not_scaled_to_snr :
  sweep_channel paper (Rpower 10 (-15 / 10)) (constant_data paper 1) g0
    = sweep_channel paper (Rpower 10 (15 / 10)) (constant_data paper 1) g0 /\
  Rpower 10 (-15 / 10) <> Rpower 10 (15 / 10) /\
  sweep_channel paper (Rpower 10 (15 / 10)) (constant_data paper 1) g0
    <> sweep_channel_as_specified paper (Rpower 10 (15 / 10))
         (constant_data paper 1) g0.
Proof.
  assert (Hsize : (0 <= size_test_data paper)%Z) by (simpl; lia).
  split; [|split].
  - rewrite !(fun snr => sweep_channel_spec paper snr _ g0 valid_paper Hsize
                            (constant_data_shape paper 1)).
    by rewrite !gaussian_noise_g0.
  - apply Rlt_not_eq, Rpower_lt; lra.
  - intros Heq.
    rewrite (sweep_channel_spec paper _ _ g0 valid_paper Hsize
               (constant_data_shape paper 1)) in Heq.
    unfold sweep_channel_as_specified in Heq.
    apply (f_equal (fun r : PyError + array2 * RandomState =>
                      match r with
                      | inr (a, _) => entry a 0 0
                      | inl _ => None
                      end)) in Heq.
    cbv beta iota in Heq.
    destruct (constant_data_entry paper 1) as (row & Hrow & Hv);
      [simpl; lia..|].
    rewrite !(entry_sweep_signal _ _ _ _ _ _ _ _ _ _
                (constant_data_shape paper 1) Hrow Hv) in Heq.
    injection Heq as Heq.
    change (rayleigh_src g0 _) with 1%R in Heq.
    change (randn_src g0 _) with 0%R in Heq.
    assert (Hlt : (beta_variance_at paper (Rpower 10 (15 / 10))
                   < beta_variance paper)%R).
    { unfold beta_variance_at, beta_variance. rewrite rate_R_paper.
      unfold Rdiv at 1 3. rewrite !Rmult_1_l.
      pose proof (Rpower_pos 10 (15 / 10)). pose proof (Eb_No_pos paper).
      apply Rinv_lt_contravar; [nra|].
      apply Rmult_lt_compat_l; [lra|].
      unfold Eb_No. apply Rpower_lt; simpl; lra. }
    lra.
Qed.

(** C4, amended: at the sweep point [snr_dB], with [snr = 10^(snr_dB/10)],
    the Gaussian noise added to every entry is a standard normal variate
    times [sqrt(1/(2*R*snr))] plus the mean 0; the fading is drawn with the
    scale [beta_variance] of the design point, whatever the swept SNR. *)
Theorem sweep_point_noise_follows_snr (h : Hyper)
    (predict : array2 -> array2) (test_data : array2) (snr_dB : R)
    (g : RandomState) :
  valid_hyper h -> (0 <= size_test_data h)%Z ->
  has_shape test_data (Z.to_nat (size_test_data h)) (Z.to_nat (M h)) ->
  has_shape (predict test_data) (Z.to_nat (size_test_data h)) (Z.to_nat (M h)) ->
  exists (signal : array2) (g' : RandomState),
    sweep_channel h (Rpower 10 (snr_dB / 10)) (predict test_data) g
      = inr (signal, g') /\
    sweep_point h predict test_data snr_dB g
      = inr (error_rate test_data (round_step signal), g') /\
    forall (i j : nat) (row : array1) (p : R),
      predict test_data !! i = Some row -> row !! j = Some p ->
      entry signal i j =
        Some (p * (1 - beta_variance h * rayleigh_src g (rayleigh_pos g + j))
              + (0 + sqrt (1 / (2 * rate_R h * Rpower 10 (snr_dB / 10)))
                     * randn_src g (randn_pos g + (i * Z.to_nat (M h) + j))))%R.
Proof.
  intros Hv Hsize Ht Hp. eexists _, _.
  split; [by apply sweep_channel_spec|].
  split; [by apply sweep_point_spec|].
  intros i j row p Hi Hj.
  by rewrite (entry_sweep_signal _ _ _ _ _ _ _ _ _ _ Hp Hi Hj).
Qed.

Lemma sweep_point_noise_follows_snr_witness :
  exists (signal : array2) (g' : RandomState),
    sweep_channel paper (Rpower 10 (3 / 10)) ((fun x => x) (constant_data paper 1)) g0
      = inr (signal, g') /\
    sweep_point paper (fun x => x) (constant_data paper 1) 3 g0
      = inr (error_rate (constant_data paper 1) (round_step signal), g') /\
    forall (i j : nat) (row : array1) (p : R),
      (fun x => x) (constant_data paper 1) !! i = Some row -> row !! j = Some p ->
      entry signal i j =
        Some (p * (1 - beta_variance paper * rayleigh_src g0 (rayleigh_pos g0 + j))
              + (0 + sqrt (1 / (2 * rate_R paper * Rpower 10 (3 / 10)))
                     * randn_src g0 (randn_pos g0 + (i * Z.to_nat (M paper) + j))))%R.
Proof.
  apply (sweep_point_noise_follows_snr paper (fun x => x)
           (constant_data paper 1) 3 g0).
  - apply valid_paper.
  - simpl. lia.
  - apply constant_data_shape.
  - apply constant_data_shape.
Defined.

(** ** The two channels side by side *)


Lemma channel_layers_spec (h : Hyper) (x : array2) (g : RandomState) :
  valid_hyper h ->
  Forall (fun row => length row = Z.to_nat (num_channels h)) x ->
  channel_layers h x g =
    let y := map (fade_train_row
                    (rayleigh_vector (beta_variance h) (Z.to_nat (num_channels h)) g))
                 x in
    inr (add_layer_noise (sqrt (beta_variance h)) g y,
         consume_keras (length (concat y))
           (consume_rayleigh (Z.to_nat (num_channels h)) g)).
Proof.
  intros Hv Hx. unfold channel_layers, bind. by rewrite rayleigh_spec.
Qed.






(** ** Rounding, comparing, averaging *)

Lemma np_round_nearest (x : R) :
  exists z : Z,
    np_round x = IZR z /\
    (Rabs (np_round x - x) <= 1 / 2)%R /\
    ((x - IZR (Int_part x))%R = (1 / 2)%R -> Z.even z = true).
Proof.
  unfold np_round. destruct (base_Int_part x) as [Hlo Hhi].
  destruct (Rlt_dec (x - IZR (Int_part x)) (1 / 2)) as [Hd|Hd].
  - exists (Int_part x). split; [done|]. split; [apply Rabs_le; lra | lra].
  - destruct (Rlt_dec (1 / 2) (x - IZR (Int_part x))) as [Hu|Hu].
    + exists (Int_part x + 1)%Z. split; [done|].
      rewrite plus_IZR. split; [apply Rabs_le; lra | lra].
    + destruct (Z.even (Int_part x)) eqn:He.
      * exists (Int_part x). split; [done|]. split; [apply Rabs_le; lra | done].
      * exists (Int_part x + 1)%Z. split; [done|].
        rewrite plus_IZR. split; [apply Rabs_le; lra|].
        intros _. rewrite Z.add_1_r, Z.even_succ, <- Z.negb_even, He. done.
Qed.

Example np_round_5_halves : np_round (5 / 2) = 2%R.
Proof.
  unfold np_round.
  replace (Int_part (5 / 2)) with 2%Z by (apply Int_part_spec; lra).
  destruct (Rlt_dec (5 / 2 - 2) (1 / 2)); [lra|].
  destruct (Rlt_dec (1 / 2) (5 / 2 - 2)); [lra|]. reflexivity.
Qed.

Example np_round_7_halves : np_round (7 / 2) = 4%R.
Proof.
  unfold np_round.
  replace (Int_part (7 / 2)) with 3%Z by (apply Int_part_spec; lra).
  destruct (Rlt_dec (7 / 2 - 3) (1 / 2)); [lra|].
  destruct (Rlt_dec (1 / 2) (7 / 2 - 3)); [lra|]. reflexivity.
Qed.

Lemma np_not_equal_true (a b : R) : np_not_equal a b = true <-> a <> b.
Proof. unfold np_not_equal. destruct (Req_dec_T a b); split; done. Qed.

Lemma count_true_le (b : list (list bool)) :
  (count_true b <= length (concat b))%nat.
Proof. unfold count_true. apply length_filter. Qed.

Lemma np_mean_shape (b : list (list bool)) (n m : nat) :
  has_shape b n m -> (0 < n * m)%nat ->
  np_mean b = Finite (INR (count_true b) / INR (n * m)) /\
  (0 <= INR (count_true b) / INR (n * m) <= 1)%R.
Proof.
  intros Hb Hpos. pose proof (count_true_le b) as Hle.
  unfold np_mean. rewrite (length_concat_shape b n m Hb) in *.
  destruct (n * m)%nat as [|t] eqn:Ht; [lia|]. split; [done|].
  assert (Hd : (0 < INR (S t))%R) by (apply lt_0_INR; lia).
  split.
  - apply Rmult_le_pos; [apply pos_INR | apply Rlt_le, Rinv_0_lt_compat, Hd].
  - apply Rmult_le_reg_r with (INR (S t)); [exact Hd|].
    unfold Rdiv. rewrite Rmult_assoc, Rinv_l, Rmult_1_r, Rmult_1_l by lra.
    by apply le_INR.
Qed.

Lemma round_step_shape (signal : array2) (n m : nat) :
  has_shape signal n m -> has_shape (round_step signal) n m.
Proof. apply has_shape_map_rows. intros row Hrow. by rewrite length_map. Qed.

(** C3: at every sweep point the loop body is, in this order: the forward
    pass on the fixed test set (its output used as it is), the fading,
    the Gaussian noise, the rounding of every entry to a nearest integer,
    and the fraction of entries that disagree with the test labels: the
    number of [True] entries of the element-wise comparison, one entry per
    entry of the test set, divided by the number of all its entries. *)
Theorem sweep_point_order_of_steps (h : Hyper)
    (predict : array2 -> array2) (test_data : array2) (snr_dB : R)
    (g : RandomState) :
  valid_hyper h -> (0 < size_test_data h)%Z ->
  has_shape test_data (Z.to_nat (size_test_data h)) (Z.to_nat (M h)) ->
  has_shape (predict test_data) (Z.to_nat (size_test_data h)) (Z.to_nat (M h)) ->
  let n := Z.to_nat (size_test_data h) in
  let m := Z.to_nat (M h) in
  let fading := rayleigh_vector (beta_variance h) m g in
  let noise :=
    gaussian_noise (std_noise_at h (Rpower 10 (snr_dB / 10))) (randn_matrix n m g) in
  let rounded :=
    round_step (noise_step noise (fade_step fading (predict test_data))) in
  let errors := zip_with (zip_with np_not_equal) rounded test_data in
  sweep_point h predict test_data snr_dB g
    = inr (error_rate test_data rounded,
           consume_randn (n * m) (consume_rayleigh m g)) /\
  length (concat errors) = (n * m)%nat /\
  error_rate test_data rounded
    = Finite (INR (length (filter (fun b : bool => b = true) (concat errors)))
              / INR (length (concat errors))) /\
  (forall (i j : nat) (s t : R),
     entry rounded i j = Some s -> entry test_data i j = Some t ->
     entry errors i j = Some (np_not_equal s t) /\
     (np_not_equal s t = true <-> s <> t)) /\
  (forall x : R,
     exists z : Z, np_round x = IZR z /\ (Rabs (np_round x - x) <= 1 / 2)%R).
Proof.
  intros Hv Hsize Ht Hp n m fading noise rounded errors.
  assert (Hr : has_shape rounded n m).
  { apply round_step_shape, sweep_signal_shape, Hp. }
  split; [apply sweep_point_spec; [done | lia | done..]|].
  assert (He : has_shape errors n m) by (by apply has_shape_zip_with).
  assert (Hlen : length (concat errors) = (n * m)%nat)
    by apply (length_concat_shape errors n m He).
  split; [exact Hlen|].
  split; [|split].
  - unfold error_rate. fold errors. rewrite Hlen.
    apply (np_mean_shape errors n m He).
    destruct Hv as [HM _]. unfold n, m. nia.
  - intros i j s t Hs Htd. split; [|apply np_not_equal_true].
    unfold entry in *. unfold errors. rewrite lookup_zip_with.
    destruct (rounded !! i) as [rrow|]; [|done].
    destruct (test_data !! i) as [trow|]; [|done]. simpl.
    by rewrite lookup_zip_with, Hs, Htd.
  - intros x. destruct (np_round_nearest x) as (z & Hz & Habs & _).
    by exists z.
Qed.

Lemma sweep_point_order_of_steps_witness :
  let h := paper in
  let predict := fun x : array2 => x in
  let test_data := constant_data paper 0 in
  let snr_dB := 0%R in
  let g := g0 in
  let n := Z.to_nat (size_test_data h) in
  let m := Z.to_nat (M h) in
  let fading := rayleigh_vector (beta_variance h) m g in
  let noise :=
    gaussian_noise (std_noise_at h (Rpower 10 (snr_dB / 10))) (randn_matrix n m g) in
  let rounded :=
    round_step (noise_step noise (fade_step fading (predict test_data))) in
  let errors := zip_with (zip_with np_not_equal) rounded test_data in
  sweep_point h predict test_data snr_dB g
    = inr (error_rate test_data rounded,
           consume_randn (n * m) (consume_rayleigh m g)) /\
  length (concat errors) = (n * m)%nat /\
  error_rate test_data rounded
    = Finite (INR (length (filter (fun b : bool => b = true) (concat errors)))
              / INR (length (concat errors))) /\
  (forall (i j : nat) (s t : R),
     entry rounded i j = Some s -> entry test_data i j = Some t ->
     entry errors i j = Some (np_not_equal s t) /\
     (np_not_equal s t = true <-> s <> t)) /\
  (forall x : R,
     exists z : Z, np_round x = IZR z /\ (Rabs (np_round x - x) <= 1 / 2)%R).
Proof.
  apply (sweep_point_order_of_steps paper (fun x => x) (constant_data paper 0) 0 g0).
  - apply valid_paper.
  - simpl. lia.
  - apply constant_data_shape.
  - apply constant_data_shape.
Defined.

(** ** The whole sweep *)

Lemma mapM_rand_total {A B} (f : A -> Rand B) (P : B -> Prop) :
  (forall a g, exists b g', f a g = inr (b, g') /\ P b) ->
  forall (l : list A) (g : RandomState),
    exists bs g', mapM_rand f l g = inr (bs, g') /\
                  length bs = length l /\ Forall P bs.
Proof.
  intros Hf. induction l as [|a l IH]; intros g.
  - exists [], g. done.
  - destruct (Hf a g) as (b & g1 & Hb & HP).
    destruct (IH g1) as (bs & g2 & Hbs & Hlen & HPs).
    exists (b :: bs), g2. simpl. unfold bind. rewrite Hb, Hbs.
    split; [done|]. split; [by rewrite <- Hlen | by constructor].
Qed.

Lemma range_SNR_dB_spec (h : Hyper) :
  (start h <= end_ h)%Z -> range_SNR_dB h = inr (half_dB_steps h).
Proof.
  intros Hse. unfold range_SNR_dB, np_linspace, half_dB_steps.
  destruct (Z.ltb_spec (2 * (end_ h - start h) + 1) 0) as [?|_]; [lia|].
  f_equal. apply map_ext_in. intros i Hi. apply in_seq in Hi. f_equal.
  rewrite plus_IZR, mult_IZR, minus_IZR.
  destruct (Z.eq_dec (start h) (end_ h)) as [Heq|Hne].
  - rewrite Heq in Hi. replace i with 0%nat by lia. simpl. lra.
  - assert (IZR (start h) < IZR (end_ h))%R by (apply IZR_lt; lia).
    field. lra.
Qed.

Lemma half_dB_steps_ascending (h : Hyper) (i j : nat) (a b : R) :
  (i < j)%nat -> half_dB_steps h !! i = Some a -> half_dB_steps h !! j = Some b ->
  (a < b)%R.
Proof.
  unfold half_dB_steps. intros Hij Ha Hb.
  rewrite list_lookup_fmap in Ha. rewrite list_lookup_fmap in Hb.
  destruct (seq _ _ !! i) as [i'|] eqn:Hi; [|done].
  destruct (seq _ _ !! j) as [j'|] eqn:Hj; [|done].
  apply lookup_seq in Hi as [-> _]. apply lookup_seq in Hj as [-> _].
  simpl in Ha, Hb. injection Ha as <-. injection Hb as <-.
  apply lt_INR in Hij. lra.
Qed.

Lemma sweep_point_total (h : Hyper) (predict : array2 -> array2)
    (test_data : array2) :
  valid_hyper h -> (0 < size_test_data h)%Z ->
  has_shape test_data (Z.to_nat (size_test_data h)) (Z.to_nat (M h)) ->
  has_shape (predict test_data) (Z.to_nat (size_test_data h)) (Z.to_nat (M h)) ->
  forall (snr_dB : R) (g : RandomState),
    exists (b : float_result) (g' : RandomState),
      sweep_point h predict test_data snr_dB g = inr (b, g') /\
      exists e : R, b = Finite e /\ (0 <= e <= 1)%R.
Proof.
  intros Hv Hsize Ht Hp snr_dB g. eexists _, _.
  split; [apply sweep_point_spec; [done | lia | done..]|].
  unfold error_rate.
  edestruct np_mean_shape as [Hmean Hbounds]; [| |rewrite Hmean; by eexists].
  - apply has_shape_zip_with; [|exact Ht].
    apply round_step_shape, sweep_signal_shape, Hp.
  - destruct Hv as [HM _]. nia.
Qed.

(** C5: the BER curve has one point per value of the sweep (61 for -15 dB
    to +15 dB in steps of 0.5 dB), the points come in ascending order of
    SNR, and every error rate lies in [[0, 1]]. *)
Theorem ber_curve_points (h : Hyper) (predict : array2 -> array2)
    (test_data : array2) (g : RandomState) :
  valid_hyper h -> (0 < size_test_data h)%Z -> (start h <= end_ h)%Z ->
  has_shape test_data (Z.to_nat (size_test_data h)) (Z.to_nat (M h)) ->
  has_shape (predict test_data) (Z.to_nat (size_test_data h)) (Z.to_nat (M h)) ->
  exists (curve : list (R * float_result)) (g' : RandomState),
    ber_curve h predict test_data g = inr (curve, g') /\
    length curve = Z.to_nat (2 * (end_ h - start h) + 1) /\
    (start h = (-15)%Z -> end_ h = 15%Z -> length curve = 61%nat) /\
    (forall (i : nat) (p : R * float_result),
       curve !! i = Some p ->
       p.1 = (IZR (start h) + INR i / 2)%R /\
       exists e : R, p.2 = Finite e /\ (0 <= e <= 1)%R) /\
    (forall (i j : nat) (p q : R * float_result),
       (i < j)%nat -> curve !! i = Some p -> curve !! j = Some q ->
       (p.1 < q.1)%R).
Proof.
  intros Hv Hsize Hse Ht Hp.
  destruct (mapM_rand_total (sweep_point h predict test_data)
              (fun b => exists e : R, b = Finite e /\ (0 <= e <= 1)%R)
              (sweep_point_total h predict test_data Hv Hsize Ht Hp)
              (half_dB_steps h) g) as (ber & g' & Hber & Hlen & Hall).
  exists (zip (half_dB_steps h) ber), g'.
  assert (Hn : length (half_dB_steps h) = Z.to_nat (2 * (end_ h - start h) + 1)).
  { unfold half_dB_steps. by rewrite length_map, length_seq. }
  assert (Hzip : forall i p, zip (half_dB_steps h) ber !! i = Some p ->
            half_dB_steps h !! i = Some p.1 /\ ber !! i = Some p.2).
  { intros i p Hi. apply lookup_zip_with_Some in Hi as (a & b & -> & Ha & Hb).
    done. }
  split; [|split; [|split; [|split]]].
  - unfold ber_curve, sweep_ber, bind, lift.
    rewrite range_SNR_dB_spec by done. by rewrite Hber.
  - rewrite length_zip_with. lia.
  - intros Hs He. rewrite length_zip_with, Hlen, Hn, Hs, He. reflexivity.
  - intros i p Hi. destruct (Hzip i p Hi) as [Ha Hb]. split.
    + unfold half_dB_steps in Ha. rewrite list_lookup_fmap in Ha.
      destruct (seq _ _ !! i) as [i'|] eqn:Hseq; [|done].
      apply lookup_seq in Hseq as [-> _]. simpl in Ha. by injection Ha as <-.
    + rewrite Forall_lookup in Hall. exact (Hall i p.2 Hb).
  - intros i j p q Hij Hi Hj.
    destruct (Hzip i p Hi) as [Ha _]. destruct (Hzip j q Hj) as [Hb _].
    exact (half_dB_steps_ascending h i j p.1 q.1 Hij Ha Hb).
Qed.

Lemma ber_curve_points_witness :
  exists (curve : list (R * float_result)) (g' : RandomState),
    ber_curve paper (fun x => x) (constant_data paper 0) g0 = inr (curve, g') /\
    length curve = Z.to_nat (2 * (end_ paper - start paper) + 1) /\
    (start paper = (-15)%Z -> end_ paper = 15%Z -> length curve = 61%nat) /\
    (forall (i : nat) (p : R * float_result),
       curve !! i = Some p ->
       p.1 = (IZR (start paper) + INR i / 2)%R /\
       exists e : R, p.2 = Finite e /\ (0 <= e <= 1)%R) /\
    (forall (i j : nat) (p q : R * float_result),
       (i < j)%nat -> curve !! i = Some p -> curve !! j = Some q ->
       (p.1 < q.1)%R).
Proof.
  apply (ber_curve_points paper (fun x => x) (constant_data paper 0) g0).
  - apply valid_paper.
  - simpl. lia.
  - simpl. lia.
  - apply constant_data_shape.
  - apply constant_data_shape.
Defined.

(** * Further properties of the code *)

(** ** Message source: the rows and the generator *)

Lemma lookup_message_row (m idx : Z) (j : nat) :
  (0 <= idx < m)%Z -> (j < Z.to_nat m)%nat ->
  message_row m idx !! j = Some (if decide (j = Z.to_nat idx) then 1%R else 0%R).
Proof.
  intros Hidx Hj. unfold message_row.
  destruct (decide (j = Z.to_nat idx)) as [->|Hne].
  - apply list_lookup_insert_eq. rewrite length_replicate. lia.
  - rewrite list_lookup_insert_ne by done. by apply lookup_replicate_2.
Qed.

(** Row [i] of a data set carries its 1 at the index handed out by the
    [i]-th call of [randint]; the loop consumes one integer per row and no
    Rayleigh or normal variate. *)
Theorem create_data_set_rows (h : Hyper) (size : Z) (g : RandomState) :
  (0 < M h)%Z -> randint_contract g ->
  exists data : array2,
    create_data_set h size g = inr (data, consume_randint (Z.to_nat size) g) /\
    forall i : nat, (i < Z.to_nat size)%nat ->
      exists row : array1,
        data !! i = Some row /\
        (0 <= randint_src g (randint_pos g + i) (M h) < M h)%Z /\
        forall j : nat, (j < Z.to_nat (M h))%nat ->
          row !! j =
            Some (if decide (j = Z.to_nat (randint_src g (randint_pos g + i) (M h)))
                  then 1%R else 0%R).
Proof.
  intros HM Hg. eexists. split; [by apply create_data_set_spec|].
  intros i Hi. eexists. split; [|split].
  - unfold drawn_rows. rewrite list_lookup_fmap, lookup_seq_lt by done. done.
  - apply Hg, HM.
  - intros j Hj. apply lookup_message_row; [apply Hg, HM | done].
Qed.

Lemma create_data_set_rows_witness :
  exists data : array2,
    create_data_set paper 4 g0 = inr (data, consume_randint (Z.to_nat 4) g0) /\
    forall i : nat, (i < Z.to_nat 4)%nat ->
      exists row : array1,
        data !! i = Some row /\
        (0 <= randint_src g0 (randint_pos g0 + i) (M paper) < M paper)%Z /\
        forall j : nat, (j < Z.to_nat (M paper))%nat ->
          row !! j =
            Some (if decide (j = Z.to_nat (randint_src g0 (randint_pos g0 + i) (M paper)))
                  then 1%R else 0%R).
Proof.
  apply (create_data_set_rows paper 4 g0); [simpl; lia | apply g0_contract].
Defined.

Lemma drawn_rows_app (h : Hyper) (g : RandomState) (n m : nat) :
  drawn_rows h g (n + m)
  = drawn_rows h g n ++ drawn_rows h (consume_randint n g) m.
Proof.
  unfold drawn_rows. rewrite seq_app, map_app. f_equal. simpl.
  rewrite <- (Nat.add_0_r n) at 1. rewrite <- fmap_add_seq.
  rewrite <- list_fmap_compose. apply map_ext. intros i. simpl.
  do 2 f_equal. lia.
Qed.

(** Two data sets drawn one after the other are the data set of the summed
    size: the second continues where the first left the generator. *)
Theorem create_data_set_app (h : Hyper) (a b : Z) (g : RandomState) :
  (0 < M h)%Z -> randint_contract g -> (0 <= a)%Z -> (0 <= b)%Z ->
  exists (da db : array2) (g1 g2 : RandomState),
    create_data_set h a g = inr (da, g1) /\
    create_data_set h b g1 = inr (db, g2) /\
    create_data_set h (a + b) g = inr (da ++ db, g2).
Proof.
  intros HM Hg Ha Hb. eexists _, _, _, _.
  split; [by apply create_data_set_spec|].
  split; [apply create_data_set_spec; [by apply randint_contract_consume | done]|].
  rewrite create_data_set_spec by done.
  rewrite consume_randint_add, Z2Nat.inj_add by done.
  by rewrite drawn_rows_app.
Qed.

Lemma create_data_set_app_witness :
  exists (da db : array2) (g1 g2 : RandomState),
    create_data_set paper 2 g0 = inr (da, g1) /\
    create_data_set paper 3 g1 = inr (db, g2) /\
    create_data_set paper (2 + 3) g0 = inr (da ++ db, g2).
Proof.
  apply (create_data_set_app paper 2 3 g0);
    [simpl; lia | apply g0_contract | lia | lia].
Defined.

(** ** The fading function outside its intended inputs *)

Lemma broadcast1_mismatch {A B C} (f : A -> B -> C) (a : list A) (b : list B) :
  length a <> length b -> length a <> 1%nat -> length b <> 1%nat ->
  broadcast1 f a b = inl ValueError.
Proof.
  intros Hab Ha Hb. unfold broadcast1.
  destruct (Nat.eqb_spec (length a) (length b)) as [?|_]; [done|].
  destruct a as [|x [|x' a]]; destruct b as [|y [|y' b]]; simpl in *; done.
Qed.

Lemma broadcast1_singleton_l {A B C} (f : A -> B -> C) (v : A) (b : list B) :
  broadcast1 f [v] b = inr (map (f v) b).
Proof.
  unfold broadcast1.
  destruct (Nat.eqb_spec (length [v]) (length b)) as [Hl|_]; [|done].
  destruct b as [|y [|y' b]]; simpl in *; done.
Qed.

Lemma broadcast2_rows {A B C} (f : A -> B -> C) (F : list A -> list C)
    (x : list (list A)) (v : list B) :
  Forall (fun row => broadcast1 f row v = inr (F row)) x ->
  broadcast2 f x (as_row v) = inr (map F x).
Proof.
  intros Hx. unfold broadcast2, as_row.
  destruct x as [|r [|r' x']]; simpl.
  - done.
  - inversion_clear Hx as [|? ? Hr _]. by rewrite Hr.
  - by apply (mapM_res_inr (fun row => broadcast1 f row v) F (r :: r' :: x')).
Qed.

Lemma broadcast2_paired {A B C} (f : A -> B -> C) (F : list A -> list B -> list C)
    (x : list (list A)) (y : list (list B)) :
  Forall2 (fun a b => broadcast1 f a b = inr (F a b)) x y ->
  broadcast2 f x y = inr (zip_with F x y).
Proof.
  intros Hxy. unfold broadcast2.
  rewrite (Forall2_length _ _ _ Hxy), Nat.eqb_refl.
  rewrite (mapM_res_inr _ (fun p => F p.1 p.2)).
  - f_equal. induction Hxy as [|a b x y _ _ IH]; simpl; [done|]. by rewrite IH.
  - induction Hxy as [|a b x y Hab _ IH]; simpl; constructor; done.
Qed.

(** A batch whose rows are neither [num_channels] wide nor one entry wide
    is rejected: the product with the drawn vector raises [ValueError]. *)
Theorem rayleigh_wrong_width (h : Hyper) (x : array2) (w : nat) (g : RandomState) :
  valid_hyper h -> x <> [] ->
  Forall (fun row => length row = w) x ->
  w <> Z.to_nat (num_channels h) -> w <> 1%nat -> (num_channels h <> 1)%Z ->
  rayleigh h x g = inl ValueError.
Proof.
  intros Hv Hne Hx Hw Hw1 Hn1. unfold rayleigh, bind.
  rewrite np_random_rayleigh_spec;
    [|apply Rlt_le, beta_variance_pos, Hv | destruct Hv; lia].
  set (r := rayleigh_vector _ _ g).
  assert (Hr : length r = Z.to_nat (num_channels h))
    by apply length_rayleigh_vector.
  assert (Hbad : forall row : array1, length row = w ->
            broadcast1 Rmult row r = inl ValueError).
  { intros row Hrow. apply broadcast1_mismatch; [lia | lia |].
    rewrite Hr. destruct Hv. lia. }
  unfold lift at 1. unfold broadcast2, as_row.
  destruct x as [|row [|row' x']]; [done| |];
    inversion_clear Hx as [|? ? Hrow _]; simpl.
  - by rewrite (Hbad row Hrow).
  - by rewrite (Hbad row Hrow).
Qed.

Lemma rayleigh_wrong_width_witness :
  rayleigh paper [[1; 2; 3]; [4; 5; 6]]%R g0 = inl ValueError.
Proof.
  apply (rayleigh_wrong_width paper [[1; 2; 3]; [4; 5; 6]]%R 3 g0).
  - apply valid_paper.
  - done.
  - repeat constructor.
  - simpl. lia.
  - lia.
  - simpl. lia.
Defined.

(** A batch whose rows hold one entry each is accepted and broadcast: every
    output row has [num_channels] entries, entry [j] of the row made from
    [v] being [v * (1 - v * r_j)].  For [num_channels > 1] the output is
    wider than the input, whatever [rayleigh_shape] declares. *)
Theorem rayleigh_width_one (h : Hyper) (vs : list R) (g : RandomState) :
  valid_hyper h ->
  exists y : array2,
    rayleigh h (map (fun v => [v]) vs) g
      = inr (y, consume_rayleigh (Z.to_nat (num_channels h)) g) /\
    has_shape y (length vs) (Z.to_nat (num_channels h)) /\
    rayleigh_shape [Z.of_nat (length vs); 1%Z] = [Z.of_nat (length vs); 1%Z] /\
    forall (i j : nat) (v : R),
      vs !! i = Some v -> (j < Z.to_nat (num_channels h))%nat ->
      entry y i j =
        Some (v * (1 - v * (beta_variance h * rayleigh_src g (rayleigh_pos g + j))))%R.
Proof.
  intros Hv. unfold rayleigh, bind.
  rewrite np_random_rayleigh_spec;
    [|apply Rlt_le, beta_variance_pos, Hv | destruct Hv; lia].
  set (r := rayleigh_vector _ _ g). unfold lift at 1.
  rewrite (broadcast2_rows Rmult (fun row => map (Rmult (hd 0%R row)) r)).
  2:{ apply Forall_map, Forall_forall. intros v _. simpl.
      apply broadcast1_singleton_l. }
  unfold lift.
  rewrite (broadcast2_paired Rmult (fun a b => map (Rmult (hd 0%R a)) b)).
  2:{ rewrite !map_map. apply Forall2_fmap, Forall_Forall2_diag, Forall_forall.
      intros v _. simpl. apply broadcast1_singleton_l. }
  eexists. split; [reflexivity|].
  rewrite !map_map. simpl.
  assert (Hrow : forall i v, vs !! i = Some v ->
            zip_with (fun a b => map (Rmult (hd 0%R a)) b)
              (map (fun v => [v]) vs)
              (map (fun v => map (fun t => (1 - t)%R) (map (Rmult v) r)) vs) !! i
            = Some (map (fun rj => (v * (1 - v * rj))%R) r)).
  { intros i v Hi. rewrite lookup_zip_with, !list_lookup_fmap, Hi. simpl.
    by rewrite !map_map. }
  split; [|split; [done|]].
  - split.
    + rewrite length_zip_with, !length_map. lia.
    + rewrite Forall_lookup. intros i row Hi.
      destruct (vs !! i) as [v|] eqn:Hvi.
      * rewrite (Hrow i v Hvi) in Hi. injection Hi as <-.
        rewrite length_map. apply length_rayleigh_vector.
      * apply lookup_ge_None in Hvi. apply lookup_lt_Some in Hi.
        rewrite length_zip_with, !length_map in Hi. lia.
  - intros i j v Hi Hj. unfold entry. rewrite (Hrow i v Hi).
    rewrite list_lookup_fmap. unfold r.
    by rewrite lookup_rayleigh_vector.
Qed.

Lemma rayleigh_width_one_witness :
  exists y : array2,
    rayleigh paper (map (fun v => [v]) [1; 2; 3]%R) g0
      = inr (y, consume_rayleigh (Z.to_nat (num_channels paper)) g0) /\
    has_shape y (length [1; 2; 3]%R) (Z.to_nat (num_channels paper)) /\
    rayleigh_shape [Z.of_nat (length [1; 2; 3]%R); 1%Z]
      = [Z.of_nat (length [1; 2; 3]%R); 1%Z] /\
    forall (i j : nat) (v : R),
      [1; 2; 3]%R !! i = Some v -> (j < Z.to_nat (num_channels paper))%nat ->
      entry y i j =
        Some (v * (1 - v * (beta_variance paper
                            * rayleigh_src g0 (rayleigh_pos g0 + j))))%R.
Proof.
  apply (rayleigh_width_one paper [1; 2; 3]%R g0). apply valid_paper.
Defined.

(** ** What the fading layer does to the size of an entry *)

(** Rayleigh variates are not negative, so the fading layer never raises an
    entry: what comes out is at most what went in, a zero entry stays
    zero, a positive entry never grows and a negative entry never shrinks
    in magnitude. *)
Theorem rayleigh_never_raises_entry (h : Hyper) (x : array2) (g : RandomState) :
  valid_hyper h -> rayleigh_contract g ->
  Forall (fun row => length row = Z.to_nat (num_channels h)) x ->
  exists (y : array2) (g' : RandomState),
    rayleigh h x g = inr (y, g') /\
    forall (i j : nat) (row : array1) (v : R),
      x !! i = Some row -> row !! j = Some v ->
      exists w : R,
        entry y i j = Some w /\
        (w <= v)%R /\
        (v = 0%R -> w = 0%R) /\
        (v < 0 -> Rabs v <= Rabs w)%R.
Proof.
  intros Hv Hg Hx. eexists _, _. split; [by apply rayleigh_spec|].
  intros i j row v Hi Hj. eexists. split.
  - rewrite (entry_map_rows _ _ _ _ _ Hi).
    apply lookup_fade_train_row; [done|].
    apply lookup_rayleigh_vector.
    rewrite Forall_lookup in Hx. rewrite <- (Hx i row Hi).
    by eapply lookup_lt_Some.
  - pose proof (beta_variance_pos h Hv) as Hb.
    pose proof (Hg (rayleigh_pos g + j)%nat) as Hz.
    set (b := beta_variance h) in *.
    set (z := rayleigh_src g (rayleigh_pos g + j)) in *.
    assert (Hbz : (0 <= b * z)%R) by nra.
    pose proof (Rle_0_sqr v) as Hsq. unfold Rsqr in Hsq.
    assert (Hw : (v * (1 - v * (b * z)) <= v)%R) by nra.
    split; [exact Hw|]. split.
    + intros ->. lra.
    + intros Hneg. rewrite !Rabs_left by lra. lra.
Qed.

Lemma rayleigh_never_raises_entry_witness :
  exists (y : array2) (g' : RandomState),
    rayleigh paper [[2; -3]]%R g0 = inr (y, g') /\
    forall (i j : nat) (row : array1) (v : R),
      [[2; -3]]%R !! i = Some row -> row !! j = Some v ->
      exists w : R,
        entry y i j = Some w /\
        (w <= v)%R /\
        (v = 0%R -> w = 0%R) /\
        (v < 0 -> Rabs v <= Rabs w)%R.
Proof.
  apply (rayleigh_never_raises_entry paper [[2; -3]]%R g0).
  - apply valid_paper.
  - intros i. simpl. lra.
  - repeat constructor.
Defined.

(** ** Fading and noise switched off *)

Lemma sweep_signal_silent (scale std_noise : R) (signal : array2)
    (n m : nat) (g : RandomState) :
  silent g -> has_shape signal n m ->
  noise_step (gaussian_noise std_noise (randn_matrix n m g))
    (fade_step (rayleigh_vector scale m g) signal) = signal.
Proof.
  intros Hg [Hn Hm]. apply list_eq. intros i.
  destruct (signal !! i) as [row|] eqn:Hi.
  - assert (Hin : (i < n)%nat) by (rewrite <- Hn; by eapply lookup_lt_Some).
    assert (Hrow : length row = m).
    { rewrite Forall_lookup in Hm. exact (Hm i row Hi). }
    unfold noise_step, gaussian_noise, fade_step, randn_matrix.
    rewrite lookup_zip_with, !list_lookup_fmap, Hi, lookup_seq_lt by done.
    simpl. f_equal. apply list_eq. intros j.
    rewrite !lookup_zip_with, !list_lookup_fmap.
    destruct (row !! j) as [v|] eqn:Hj; [|done]. simpl.
    assert (Hjm : (j < m)%nat) by (rewrite <- Hrow; by eapply lookup_lt_Some).
    rewrite lookup_rayleigh_vector, lookup_seq_lt by done. simpl.
    destruct (Hg (rayleigh_pos g + j)%nat) as [-> _].
    match goal with |- context [randn_src g ?p] =>
      destruct (Hg p) as [_ ->] end.
    f_equal. lra.
  - unfold noise_step, fade_step.
    by rewrite lookup_zip_with, list_lookup_fmap, Hi.
Qed.

(** With fading and noise switched off, both channels hand their input
    back unchanged: the sweep code, on an array of the shape of the test
    set, when every Rayleigh and every normal variate of [np.random] is 0;
    the layers of the training graph, on a batch of channel symbols, when
    in addition every normal variate of the Keras generator is 0. *)
Theorem channels_silent_identity (h : Hyper) (x signal : array2) (snr : R)
    (g : RandomState) :
  valid_hyper h -> (0 <= size_test_data h)%Z -> silent g -> keras_silent g ->
  Forall (fun row => length row = Z.to_nat (num_channels h)) x ->
  has_shape signal (Z.to_nat (size_test_data h)) (Z.to_nat (M h)) ->
  (exists g' : RandomState, channel_layers h x g = inr (x, g')) /\
  (exists g' : RandomState, sweep_channel h snr signal g = inr (signal, g')).
Proof.
  intros Hv Hsize Hg Hk Hx Hs. split.
  - rewrite channel_layers_spec by done. cbv zeta. eexists. f_equal. f_equal.
    apply list_eq. intros i. unfold add_layer_noise.
    rewrite list_lookup_imap, list_lookup_fmap.
    destruct (x !! i) as [row|] eqn:Hi; [|done]. simpl. f_equal.
    apply list_eq. intros j. rewrite list_lookup_imap.
    destruct (row !! j) as [v|] eqn:Hj.
    + assert (Hjn : (j < Z.to_nat (num_channels h))%nat).
      { rewrite Forall_lookup in Hx. rewrite <- (Hx i row Hi).
        by eapply lookup_lt_Some. }
      rewrite (lookup_fade_train_row _ _ _ v _ Hj
                 (lookup_rayleigh_vector _ _ _ _ Hjn)). simpl.
      destruct (Hg (rayleigh_pos g + j)%nat) as [-> _].
      rewrite Hk. f_equal. lra.
    + unfold fade_train_row. by rewrite lookup_zip_with, Hj.
  - rewrite sweep_channel_spec by done. eexists.
    by rewrite sweep_signal_silent.
Qed.

Lemma channels_silent_identity_witness :
  (exists g' : RandomState,
     channel_layers paper [[2; 3]]%R g_silent = inr ([[2; 3]]%R, g')) /\
  (exists g' : RandomState,
     sweep_channel paper 5 (constant_data paper 1) g_silent
       = inr (constant_data paper 1, g')).
Proof.
  apply (channels_silent_identity paper [[2; 3]]%R (constant_data paper 1) 5
           g_silent).
  - apply valid_paper.
  - simpl. lia.
  - intros i. split; reflexivity.
  - intros i. reflexivity.
  - repeat constructor.
  - apply constant_data_shape.
Defined.

(** ** The decision taken by rounding *)

Lemma np_round_integer_iff (x : R) (z : Z) :
  np_round x = IZR z <->
  (IZR z - 1 / 2 < x < IZR z + 1 / 2)%R \/
  (Z.even z = true /\ (x = (IZR z - 1 / 2)%R \/ x = (IZR z + 1 / 2)%R)).
Proof.
  split.
  - unfold np_round. destruct (base_Int_part x) as [Hlo Hhi].
    destruct (Rlt_dec (x - IZR (Int_part x)) (1 / 2)) as [Hd|Hd].
    { intros Heq. apply eq_IZR in Heq. subst z. left. lra. }
    destruct (Rlt_dec (1 / 2) (x - IZR (Int_part x))) as [Hu|Hu].
    { intros Heq. apply eq_IZR in Heq. subst z. rewrite plus_IZR. left. lra. }
    destruct (Z.even (Int_part x)) eqn:He; intros Heq; apply eq_IZR in Heq;
      subst z; right.
    + split; [done|]. right. lra.
    + split.
      * by rewrite Z.add_1_r, Z.even_succ, <- Z.negb_even, He.
      * left. rewrite plus_IZR. lra.
  - intros [[Hlo Hhi]|[He [Hx|Hx]]].
    + destruct (Rle_dec (IZR z) x) as [Hzx|Hzx].
      * unfold np_round.
        replace (Int_part x) with z by (apply Int_part_spec; lra).
        destruct (Rlt_dec (x - IZR z) (1 / 2)); [done | lra].
      * unfold np_round.
        replace (Int_part x) with (z - 1)%Z
          by (apply Int_part_spec; rewrite minus_IZR; lra).
        rewrite minus_IZR.
        destruct (Rlt_dec (x - (IZR z - 1)) (1 / 2)); [lra|].
        destruct (Rlt_dec (1 / 2) (x - (IZR z - 1))); [|lra].
        f_equal. lia.
    + unfold np_round.
      replace (Int_part x) with (z - 1)%Z
        by (apply Int_part_spec; rewrite minus_IZR; lra).
      rewrite minus_IZR.
      destruct (Rlt_dec (x - (IZR z - 1)) (1 / 2)); [lra|].
      destruct (Rlt_dec (1 / 2) (x - (IZR z - 1))); [lra|].
      replace (Z.even (z - 1)) with false.
      * f_equal. lia.
      * replace z with (Z.succ (z - 1)) in He by lia.
        rewrite Z.even_succ, <- Z.negb_even in He.
        by destruct (Z.even (z - 1)).
    + unfold np_round.
      replace (Int_part x) with z by (apply Int_part_spec; lra).
      destruct (Rlt_dec (x - IZR z) (1 / 2)); [lra|].
      destruct (Rlt_dec (1 / 2) (x - IZR z)); [lra|].
      by rewrite He.
Qed.

(** Against a one-hot label the rounding of line 223 decides as follows:
    an entry whose label is 0 counts as correct exactly when the received
    value lies in [[-1/2, 1/2]] (both ties go to the even 0), and an entry
    whose label is 1 exactly when it lies strictly between 1/2 and 3/2
    (both ties go away from the odd 1). *)
Theorem rounding_decision_rule (x : R) :
  (np_not_equal (np_round x) 0 = false <-> (-1 / 2 <= x <= 1 / 2)%R) /\
  (np_not_equal (np_round x) 1 = false <-> (1 / 2 < x < 3 / 2)%R).
Proof.
  assert (Hneq : forall a b, np_not_equal a b = false <-> a = b).
  { intros a b. unfold np_not_equal. destruct (Req_dec_T a b); split; done. }
  split; rewrite Hneq.
  - rewrite (np_round_integer_iff x 0). simpl. split.
    + intros [?|[_ [?|?]]]; lra.
    + intros [Hlo Hhi].
      destruct (Req_dec_T x (-1 / 2)) as [->|?]; [right; split; [done|left; lra]|].
      destruct (Req_dec_T x (1 / 2)) as [->|?]; [right; split; [done|right; lra]|].
      left. lra.
  - rewrite (np_round_integer_iff x 1). simpl. split.
    + intros [?|[? _]]; [lra | done].
    + intros ?. left. lra.
Qed.

(** ** The extreme values of an error rate *)

Lemma filter_true_none (l : list bool) :
  length (filter (fun v => v = true) l) = 0%nat <-> Forall (fun v => v = false) l.
Proof.
  induction l as [|[] l IH].
  - split; [constructor | done].
  - rewrite filter_cons_True by done. split; [done|].
    intros H. by inversion H.
  - rewrite filter_cons_False by done. rewrite IH. split.
    + by constructor.
    + intros H. by inversion H.
Qed.

Lemma filter_true_all (l : list bool) :
  length (filter (fun v => v = true) l) = length l <-> Forall (fun v => v = true) l.
Proof.
  induction l as [|[] l IH].
  - split; [constructor | done].
  - rewrite filter_cons_True by done. simpl. split.
    + intros H. constructor; [done|]. apply IH. lia.
    + intros H. inversion_clear H as [|? ? _ Hl]. apply IH in Hl. lia.
  - rewrite filter_cons_False by done. simpl. split.
    + intros H. pose proof (length_filter (fun v => v = true) l). lia.
    + intros H. by inversion H.
Qed.

Lemma Forall_concat_entries {A} (P : A -> Prop) (b : list (list A)) :
  Forall P (concat b) <->
  forall (i j : nat) (v : A), entry b i j = Some v -> P v.
Proof.
  unfold entry. induction b as [|row b IH]; simpl.
  - split; [|constructor]. intros _ i j v. done.
  - rewrite Forall_app, IH. split.
    + intros [Hrow Hb] [|i] j v; simpl.
      * rewrite Forall_lookup in Hrow. apply Hrow.
      * apply Hb.
    + intros H. split.
      * rewrite Forall_lookup. intros j v. apply (H 0%nat j v).
      * intros i j v. apply (H (S i) j v).
Qed.

Lemma np_mean_extremes (b : list (list bool)) (n m : nat) :
  has_shape b n m -> (0 < n * m)%nat ->
  exists e : R,
    np_mean b = Finite e /\
    (e = 0%R <-> forall i j v, entry b i j = Some v -> v = false) /\
    (e = 1%R <-> forall i j v, entry b i j = Some v -> v = true).
Proof.
  intros Hb Hpos. destruct (np_mean_shape b n m Hb Hpos) as [Hmean _].
  eexists. split; [exact Hmean|].
  pose proof (length_concat_shape b n m Hb) as Hlen.
  assert (Hd : (0 < INR (n * m))%R) by (apply lt_0_INR; lia).
  rewrite <- !Forall_concat_entries, <- filter_true_none, <- filter_true_all.
  fold (count_true b). rewrite Hlen. split; split.
  - intros He. apply INR_eq. simpl.
    apply (Rmult_eq_compat_r (INR (n * m))) in He.
    unfold Rdiv in He. rewrite Rmult_assoc, Rinv_l, Rmult_1_r, Rmult_0_l in He by lra.
    exact He.
  - intros ->. simpl. unfold Rdiv. lra.
  - intros He. apply INR_eq.
    apply (Rmult_eq_compat_r (INR (n * m))) in He.
    unfold Rdiv in He. rewrite Rmult_assoc, Rinv_l, Rmult_1_r, Rmult_1_l in He by lra.
    exact He.
  - intros ->. unfold Rdiv. rewrite Rinv_r by lra. done.
Qed.

Lemma entry_errors (rounded test_data : array2) (i j : nat) (v : bool) :
  entry (zip_with (zip_with np_not_equal) rounded test_data) i j = Some v <->
  exists s t : R, entry rounded i j = Some s /\ entry test_data i j = Some t /\
                  v = np_not_equal s t.
Proof.
  unfold entry. rewrite lookup_zip_with.
  destruct (rounded !! i) as [rrow|]; simpl.
  2:{ split; [done | by intros (? & ? & ? & _)]. }
  destruct (test_data !! i) as [trow|]; simpl.
  2:{ split; [done|]. intros (s & t & Hs & Ht & _). done. }
  rewrite lookup_zip_with.
  destruct (rrow !! j) as [s|]; simpl.
  2:{ split; [done | by intros (? & ? & ? & _)]. }
  destruct (trow !! j) as [t|]; simpl.
  2:{ split; [done|]. intros (s' & t' & Hs & Ht & _). done. }
  split.
  - intros [= <-]. by exists s, t.
  - intros (s' & t' & [= <-] & [= <-] & ->). done.
Qed.

(** The error rate of a sweep point is 0 exactly when every rounded entry
    equals its label, and 1 exactly when every rounded entry differs from
    its label. *)
Theorem sweep_point_extreme_rates (h : Hyper)
    (predict : array2 -> array2) (test_data : array2) (snr_dB : R)
    (g : RandomState) :
  valid_hyper h -> (0 < size_test_data h)%Z ->
  has_shape test_data (Z.to_nat (size_test_data h)) (Z.to_nat (M h)) ->
  has_shape (predict test_data) (Z.to_nat (size_test_data h)) (Z.to_nat (M h)) ->
  exists (signal : array2) (e : R) (g' : RandomState),
    sweep_channel h (Rpower 10 (snr_dB / 10)) (predict test_data) g
      = inr (signal, g') /\
    sweep_point h predict test_data snr_dB g = inr (Finite e, g') /\
    (e = 0%R <->
       forall (i j : nat) (s t : R),
         entry signal i j = Some s -> entry test_data i j = Some t ->
         np_round s = t) /\
    (e = 1%R <->
       forall (i j : nat) (s t : R),
         entry signal i j = Some s -> entry test_data i j = Some t ->
         np_round s <> t).
Proof.
  intros Hv Hsize Ht Hp.
  set (n := Z.to_nat (size_test_data h)). set (m := Z.to_nat (M h)).
  set (signal := noise_step
         (gaussian_noise (std_noise_at h (Rpower 10 (snr_dB / 10)))
            (randn_matrix n m g))
         (fade_step (rayleigh_vector (beta_variance h) m g) (predict test_data))).
  assert (Hsig : has_shape signal n m) by (by apply sweep_signal_shape).
  destruct (np_mean_extremes
              (zip_with (zip_with np_not_equal) (round_step signal) test_data) n m)
    as (e & Hmean & H0 & H1).
  { apply has_shape_zip_with; [by apply round_step_shape | done]. }
  { destruct Hv as [HM _]. unfold n, m. nia. }
  assert (Hround : forall i j r,
            entry (round_step signal) i j = Some r <->
            exists s, entry signal i j = Some s /\ r = np_round s).
  { intros i j r. unfold entry, round_step. rewrite list_lookup_fmap.
    destruct (signal !! i) as [row|]; simpl.
    - rewrite list_lookup_fmap. destruct (row !! j) as [s|]; simpl.
      + split; [intros [= <-]; by exists s | by intros (s' & [= <-] & ->)].
      + split; [done | by intros (? & ? & _)].
    - split; [done | by intros (? & ? & _)]. }
  exists signal, e, (consume_randn (n * m) (consume_rayleigh m g)).
  split; [apply sweep_channel_spec; [done | lia | done]|].
  split.
  { rewrite sweep_point_spec; [|done | lia | done..].
    unfold error_rate. fold n m signal. by rewrite Hmean. }
  split.
  - rewrite H0. split.
    + intros Hall i j s t Hs Htd.
      assert (Hv' : np_not_equal (np_round s) t = false).
      { apply (Hall i j). apply entry_errors. exists (np_round s), t.
        split; [|done]. apply Hround. by exists s. }
      unfold np_not_equal in Hv'. by destruct (Req_dec_T (np_round s) t).
    + intros Hall i j v Hentry.
      apply entry_errors in Hentry as (r & t & Hr & Htd & ->).
      apply Hround in Hr as (s & Hs & ->).
      unfold np_not_equal. destruct (Req_dec_T (np_round s) t) as [|Hne]; [done|].
      destruct Hne. by apply (Hall i j).
  - rewrite H1. split.
    + intros Hall i j s t Hs Htd.
      apply np_not_equal_true. apply (Hall i j). apply entry_errors.
      exists (np_round s), t. split; [|done]. apply Hround. by exists s.
    + intros Hall i j v Hentry.
      apply entry_errors in Hentry as (r & t & Hr & Htd & ->).
      apply Hround in Hr as (s & Hs & ->).
      apply np_not_equal_true. by apply (Hall i j s t).
Qed.

Lemma sweep_point_extreme_rates_witness :
  exists (signal : array2) (e : R) (g' : RandomState),
    sweep_channel paper (Rpower 10 (7 / 10)) ((fun x => x) (constant_data paper 1)) g0
      = inr (signal, g') /\
    sweep_point paper (fun x => x) (constant_data paper 1) 7 g0
      = inr (Finite e, g') /\
    (e = 0%R <->
       forall (i j : nat) (s t : R),
         entry signal i j = Some s -> entry (constant_data paper 1) i j = Some t ->
         np_round s = t) /\
    (e = 1%R <->
       forall (i j : nat) (s t : R),
         entry signal i j = Some s -> entry (constant_data paper 1) i j = Some t ->
         np_round s <> t).
Proof.
  apply (sweep_point_extreme_rates paper (fun x => x) (constant_data paper 1) 7 g0).
  - apply valid_paper.
  - simpl. lia.
  - apply constant_data_shape.
  - apply constant_data_shape.
Defined.

(** ** The sweep as a whole *)

Lemma at_point_0 (h : Hyper) (g : RandomState) : at_point h 0 g = g.
Proof.
  destruct g. unfold at_point, consume_randn, consume_rayleigh. simpl.
  f_equal; lia.
Qed.

Lemma at_point_S (h : Hyper) (i : nat) (g : RandomState) :
  consume_randn (Z.to_nat (size_test_data h) * Z.to_nat (M h))
    (consume_rayleigh (Z.to_nat (M h)) (at_point h i g))
  = at_point h (S i) g.
Proof.
  unfold at_point, consume_randn, consume_rayleigh. simpl. f_equal; lia.
Qed.

Lemma mapM_sweep_points (h : Hyper) (predict : array2 -> array2)
    (test_data : array2) (g : RandomState) :
  valid_hyper h -> (0 <= size_test_data h)%Z ->
  has_shape test_data (Z.to_nat (size_test_data h)) (Z.to_nat (M h)) ->
  has_shape (predict test_data) (Z.to_nat (size_test_data h)) (Z.to_nat (M h)) ->
  forall (l : array1) (i : nat),
    mapM_rand (sweep_point h predict test_data) l (at_point h i g)
    = inr (imap (fun k snr_dB => point_ber h predict test_data g (i + k) snr_dB) l,
           at_point h (i + length l) g).
Proof.
  intros Hv Hsize Ht Hp. induction l as [|snr_dB l IH]; intros i.
  - simpl. unfold ret. by rewrite Nat.add_0_r.
  - simpl. unfold bind at 1. rewrite sweep_point_spec by done.
    rewrite at_point_S. unfold bind at 1. rewrite IH. unfold ret.
    rewrite Nat.add_0_r. do 2 f_equal.
    + f_equal. apply imap_ext. intros k x _. simpl. f_equal. lia.
    + f_equal. lia.
Qed.

Lemma sweep_ber_spec (h : Hyper) (predict : array2 -> array2)
    (test_data : array2) (g : RandomState) :
  valid_hyper h -> (0 <= size_test_data h)%Z -> (start h <= end_ h)%Z ->
  has_shape test_data (Z.to_nat (size_test_data h)) (Z.to_nat (M h)) ->
  has_shape (predict test_data) (Z.to_nat (size_test_data h)) (Z.to_nat (M h)) ->
  sweep_ber h predict test_data g
  = inr (imap (point_ber h predict test_data g) (half_dB_steps h),
         at_point h (length (half_dB_steps h)) g).
Proof.
  intros Hv Hsize Hse Ht Hp. unfold sweep_ber, bind, lift.
  rewrite range_SNR_dB_spec by done.
  rewrite <- (at_point_0 h g) at 1.
  by rewrite (mapM_sweep_points h predict test_data g Hv Hsize Ht Hp).
Qed.

Lemma length_half_dB_steps (h : Hyper) :
  length (half_dB_steps h) = Z.to_nat (2 * (end_ h - start h) + 1).
Proof. unfold half_dB_steps. by rewrite length_map, length_seq. Qed.

(** ** Shapes the sweep code refuses *)

Lemma broadcast2_row_count_mismatch {A B C} (f : A -> B -> C)
    (x : list (list A)) (y : list (list B)) :
  length x <> length y -> length x <> 1%nat -> length y <> 1%nat ->
  broadcast2 f x y = inl ValueError.
Proof.
  intros Hxy Hx Hy. unfold broadcast2.
  destruct (Nat.eqb_spec (length x) (length y)) as [?|_]; [done|].
  destruct x as [|r [|r' x]]; destruct y as [|s [|s' y]]; simpl in *; done.
Qed.

(** The fading and noise code of the sweep fits the test set only: a
    non-empty signal whose rows are neither [M] wide nor one entry wide
    raises [ValueError] at the fading, and a signal of the right width
    whose number of rows is neither [size_test_data] nor 1 raises
    [ValueError] when the noise is added. *)
Theorem sweep_channel_shape_errors (h : Hyper) (snr : R) (signal : array2)
    (rows width : nat) (g : RandomState) :
  valid_hyper h -> (0 <= size_test_data h)%Z -> (size_test_data h <> 1)%Z ->
  has_shape signal rows width -> rows <> 0%nat ->
  (width <> Z.to_nat (M h) /\ width <> 1%nat) \/
  (width = Z.to_nat (M h) /\ rows <> Z.to_nat (size_test_data h) /\ rows <> 1%nat) ->
  sweep_channel h snr signal g = inl ValueError.
Proof.
  intros Hv Hsize Hsize1 [Hrows Hwidth] Hne Hcase.
  assert (HM : (2 <= Z.to_nat (M h))%nat) by (destruct Hv; lia).
  unfold sweep_channel, bind.
  rewrite np_random_rayleigh_spec;
    [|apply Rlt_le, beta_variance_pos, Hv | destruct Hv; lia].
  set (fading := rayleigh_vector _ _ g).
  assert (Hf : length (map (fun v => (1 - v)%R) fading) = Z.to_nat (M h)).
  { rewrite length_map. apply length_rayleigh_vector. }
  unfold lift at 1. destruct Hcase as [[Hw Hw1]|(Hw & Hr & Hr1)].
  - assert (Hbad : forall row : array1, length row = width ->
              broadcast1 Rmult row (map (fun v => (1 - v)%R) fading)
              = inl ValueError).
    { intros row Hrow. apply broadcast1_mismatch; lia. }
    unfold broadcast2, as_row.
    destruct signal as [|row [|row' signal']]; [simpl in *; lia| |];
      inversion_clear Hwidth as [|? ? Hrow _]; simpl.
    + by rewrite (Hbad row Hrow).
    + by rewrite (Hbad row Hrow).
  - rewrite broadcast2_row.
    2:{ eapply Forall_impl; [exact Hwidth|]. intros row Hrow. simpl in *. lia. }
    rewrite np_random_randn_spec; [|done | destruct Hv; lia].
    unfold lift. rewrite broadcast2_row_count_mismatch; [done| | |].
    + unfold randn_matrix. rewrite !length_map, length_seq. lia.
    + rewrite length_map. lia.
    + unfold randn_matrix. rewrite !length_map, length_seq. lia.
Qed.

Lemma sweep_channel_shape_errors_witness :
  sweep_channel paper 5 [[1; 2; 3]; [4; 5; 6]]%R g0 = inl ValueError.
Proof.
  apply (sweep_channel_shape_errors paper 5 [[1; 2; 3]; [4; 5; 6]]%R 2 3 g0).
  - apply valid_paper.
  - simpl. lia.
  - simpl. lia.
  - split; [done | repeat constructor].
  - lia.
  - left. simpl. lia.
Defined.

(** ** The swept values *)

(** The sweep starts at [start] dB and ends at [end] dB, both included, and
    every value in between is a multiple of half a dB. *)
Theorem range_SNR_dB_end_points (h : Hyper) :
  (start h <= end_ h)%Z ->
  exists range : array1,
    range_SNR_dB h = inr range /\
    head range = Some (IZR (start h)) /\
    last range = Some (IZR (end_ h)) /\
    forall (i : nat) (snr_dB : R),
      range !! i = Some snr_dB ->
      snr_dB = (IZR (2 * start h + Z.of_nat i) / 2)%R /\
      (IZR (start h) <= snr_dB <= IZR (end_ h))%R.
Proof.
  intros Hse. exists (half_dB_steps h).
  split; [by apply range_SNR_dB_spec|].
  assert (Hlook : forall i, (i < Z.to_nat (2 * (end_ h - start h) + 1))%nat ->
            half_dB_steps h !! i = Some (IZR (start h) + INR i / 2)%R).
  { intros i Hi. unfold half_dB_steps.
    by rewrite list_lookup_fmap, lookup_seq_lt by done. }
  split; [|split].
  - rewrite head_lookup, Hlook by lia. simpl. f_equal. lra.
  - rewrite last_lookup, length_half_dB_steps, Hlook by lia. f_equal.
    rewrite INR_IZR_INZ.
    replace (Z.of_nat (Init.Nat.pred (Z.to_nat (2 * (end_ h - start h) + 1))))
      with (2 * (end_ h - start h))%Z by lia.
    rewrite mult_IZR, minus_IZR. lra.
  - intros i snr_dB Hi.
    assert (Hlt : (i < Z.to_nat (2 * (end_ h - start h) + 1))%nat).
    { apply lookup_lt_Some in Hi. by rewrite length_half_dB_steps in Hi. }
    rewrite Hlook in Hi by done. injection Hi as <-.
    rewrite plus_IZR, mult_IZR, <- INR_IZR_INZ.
    split; [lra|].
    pose proof (pos_INR i) as H0.
    assert (Hi2 : (INR i <= 2 * (IZR (end_ h) - IZR (start h)))%R).
    { rewrite INR_IZR_INZ, <- minus_IZR, <- mult_IZR. apply IZR_le. lia. }
    lra.
Qed.

Lemma range_SNR_dB_end_points_witness :
  exists range : array1,
    range_SNR_dB paper = inr range /\
    head range = Some (IZR (start paper)) /\
    last range = Some (IZR (end_ paper)) /\
    forall (i : nat) (snr_dB : R),
      range !! i = Some snr_dB ->
      snr_dB = (IZR (2 * start paper + Z.of_nat i) / 2)%R /\
      (IZR (start paper) <= snr_dB <= IZR (end_ paper))%R.
Proof.
  apply (range_SNR_dB_end_points paper). simpl. lia.
Defined.

(** When [end] lies below [start] the number of samples asked of
    [np.linspace] is negative: it raises [ValueError] and no point of the
    curve is computed. *)
Theorem reversed_range_raises (h : Hyper) (predict : array2 -> array2)
    (test_data : array2) (g : RandomState) :
  (end_ h < start h)%Z ->
  range_SNR_dB h = inl ValueError /\
  sweep_ber h predict test_data g = inl ValueError /\
  ber_curve h predict test_data g = inl ValueError.
Proof.
  intros Hes.
  assert (Hr : range_SNR_dB h = inl ValueError).
  { unfold range_SNR_dB, np_linspace.
    destruct (Z.ltb_spec (2 * (end_ h - start h) + 1) 0) as [_|?]; [done | lia]. }
  split; [done|].
  assert (Hb : sweep_ber h predict test_data g = inl ValueError).
  { unfold sweep_ber, bind, lift. by rewrite Hr. }
  split; [done|]. unfold ber_curve, bind. by rewrite Hb.
Qed.

Lemma reversed_range_raises_witness :
  range_SNR_dB reversed = inl ValueError /\
  sweep_ber reversed (fun x => x) [] g0 = inl ValueError /\
  ber_curve reversed (fun x => x) [] g0 = inl ValueError.
Proof.
  apply (reversed_range_raises reversed (fun x => x) [] g0). simpl. lia.
Defined.

(** ** The noise level along the sweep *)

(** The standard deviation of the sweep noise is positive and strictly
    decreasing in the swept SNR; at [SNR_dB = Eb_No_dB] it is the
    [sqrt beta_variance] of the training noise, so the sweep is noisier
    than the training below the design point and quieter above it. *)
Theorem std_noise_decreasing (h : Hyper) (a b : R) :
  valid_hyper h -> (a < b)%R ->
  (0 < std_noise_at h (Rpower 10 (b / 10))
     < std_noise_at h (Rpower 10 (a / 10)))%R /\
  std_noise_at h (Rpower 10 (IZR (Eb_No_dB h) / 10)) = sqrt (beta_variance h).
Proof.
  intros Hv Hab. split; [|reflexivity].
  pose proof (rate_R_pos h Hv) as HR.
  pose proof (Rpower_pos 10 (a / 10)) as Ha.
  pose proof (Rpower_pos 10 (b / 10)) as Hb.
  assert (Hlt : (Rpower 10 (a / 10) < Rpower 10 (b / 10))%R)
    by (apply Rpower_lt; lra).
  assert (Hda : (0 < 2 * rate_R h * Rpower 10 (a / 10))%R) by nra.
  assert (Hdb : (0 < 2 * rate_R h * Rpower 10 (b / 10))%R) by nra.
  assert (Hinv : (0 < 1 / (2 * rate_R h * Rpower 10 (b / 10))
                  < 1 / (2 * rate_R h * Rpower 10 (a / 10)))%R).
  { unfold Rdiv. rewrite !Rmult_1_l. split.
    - by apply Rinv_0_lt_compat.
    - apply Rinv_lt_contravar; nra. }
  unfold std_noise_at. split.
  - apply sqrt_lt_R0. lra.
  - apply sqrt_lt_1; lra.
Qed.

Lemma std_noise_decreasing_witness :
  (0 < std_noise_at paper (Rpower 10 (15 / 10))
     < std_noise_at paper (Rpower 10 (-15 / 10)))%R /\
  std_noise_at paper (Rpower 10 (IZR (Eb_No_dB paper) / 10))
    = sqrt (beta_variance paper).
Proof.
  apply (std_noise_decreasing paper (-15) 15); [apply valid_paper | lra].
Defined.

(** ** From the data sets to the curve *)

Lemma drawn_rows_shape (h : Hyper) (g : RandomState) (n : nat) :
  has_shape (drawn_rows h g n) n (Z.to_nat (M h)).
Proof.
  unfold drawn_rows. split; [by rewrite length_map, length_seq|].
  apply Forall_map, Forall_forall. intros i _. unfold message_row.
  by rewrite length_insert, length_replicate.
Qed.



Lemma history_reads_missing {A} (d : gmap string (list R)) (k : Rand A)
    (g : RandomState) :
  ~ history_keys d ->
  (train_accuracy <- lift (getitem d "acc") ;;
   train_loss <- lift (getitem d "loss") ;;
   valid_accuracy <- lift (getitem d "val_acc") ;;
   valid_loss <- lift (getitem d "val_loss") ;; k) g = inl KeyError.
Proof.
  intros Hn. unfold bind, lift, getitem.
  destruct (d !! "acc") as [a|] eqn:Ha; [|done].
  destruct (d !! "loss") as [l|] eqn:Hl; [|done].
  destruct (d !! "val_acc") as [va|] eqn:Hva; [|done].
  destruct (d !! "val_loss") as [vl|] eqn:Hvl; [|done].
  destruct Hn. unfold history_keys. rewrite Ha, Hl, Hva, Hvl.
  repeat split; by eexists.
Qed.

Lemma script_after_fit (h : Hyper)
    (fit : array2 -> array2 -> array2 * array2 ->
           Rand ((array2 -> array2) * gmap string (list R)))
    (g g4 : RandomState) (predict : array2 -> array2)
    (history_dict : gmap string (list R)) :
  (0 < M h)%Z -> randint_contract g ->
  let g1 := consume_randint (Z.to_nat (size_train_data h)) g in
  let g2 := consume_randint (Z.to_nat (size_val_data h)) g1 in
  let g3 := consume_randint (Z.to_nat (size_test_data h)) g2 in
  let train_data := drawn_rows h g (Z.to_nat (size_train_data h)) in
  let val_data := drawn_rows h g1 (Z.to_nat (size_val_data h)) in
  let test_data := drawn_rows h g2 (Z.to_nat (size_test_data h)) in
  fit train_data train_data (val_data, val_data) g3
    = inr ((predict, history_dict), g4) ->
  script h fit g
  = (train_accuracy <- lift (getitem history_dict "acc") ;;
     train_loss <- lift (getitem history_dict "loss") ;;
     valid_accuracy <- lift (getitem history_dict "val_acc") ;;
     valid_loss <- lift (getitem history_dict "val_loss") ;;
     curve <- ber_curve h predict test_data ;;
     ret (test_data, curve)) g4.
Proof.
  intros HM Hg g1 g2 g3 train_data val_data test_data Hfit.
  assert (Hg1 : randint_contract g1) by (by apply randint_contract_consume).
  assert (Hg2 : randint_contract g2) by (by apply randint_contract_consume).
  unfold script. unfold bind at 1.
  rewrite (create_data_set_spec h _ g Hg HM). fold g1 train_data.
  unfold bind at 1.
  rewrite (create_data_set_spec h _ g1 Hg1 HM). fold g2 val_data.
  unfold bind at 1.
  rewrite (create_data_set_spec h _ g2 Hg2 HM). fold g3 test_data.
  unfold bind at 1. by rewrite Hfit.
Qed.




(** A run whose history names the accuracy ["accuracy"] stops at line 191. *)
Example script_renamed_metrics : script paper fit_renamed g0 = inl KeyError.
Proof.
  rewrite (script_after_fit paper fit_renamed g0 _ (fun a => a) _
             ltac:(simpl; lia) g0_contract eq_refl).
  apply history_reads_missing. intros ([a Ha] & _).
  vm_compute in Ha. discriminate Ha.
Qed.

(** ** A perfect network on a quiet channel *)

Lemma silent_at_point (h : Hyper) (i : nat) (g : RandomState) :
  silent g -> silent (at_point h i g).
Proof. intros Hg j. apply (Hg j). Qed.

Lemma one_hot_entries (m : Z) (test_data : array2) (i j : nat) (t : R) :
  Forall (one_hot m) test_data -> entry test_data i j = Some t ->
  t = 0%R \/ t = 1%R.
Proof.
  intros Hoh Ht. unfold entry in Ht.
  destruct (test_data !! i) as [row|] eqn:Hi; [|done].
  rewrite Forall_lookup in Hoh.
  destruct (Hoh i row Hi) as (_ & idx & _ & Hrow).
  rewrite (Hrow j) in Ht by (by eapply lookup_lt_Some).
  injection Ht as <-. destruct (decide (j = idx)); auto.
Qed.

Lemma np_round_label (t : R) : t = 0%R \/ t = 1%R -> np_round t = t.
Proof.
  intros [->| ->].
  - apply (np_round_integer_iff 0 0). left. simpl. lra.
  - apply (np_round_integer_iff 1 1). left. simpl. lra.
Qed.

Lemma error_rate_labels_zero (test_data : array2) (n m : nat) (mz : Z) :
  has_shape test_data n m -> (0 < n * m)%nat ->
  Forall (one_hot mz) test_data ->
  error_rate test_data (round_step test_data) = Finite 0.
Proof.
  intros Ht Hpos Hoh. unfold error_rate.
  destruct (np_mean_extremes
              (zip_with (zip_with np_not_equal) (round_step test_data) test_data)
              n m) as (e & Hmean & H0 & _).
  { apply has_shape_zip_with; [by apply round_step_shape | done]. }
  { done. }
  rewrite Hmean. f_equal. apply H0. intros i j v Hentry.
  apply entry_errors in Hentry as (r & t & Hr & Htd & ->).
  unfold entry, round_step in Hr. rewrite list_lookup_fmap in Hr.
  unfold entry in Htd.
  destruct (test_data !! i) as [row|] eqn:Hi; [|done]. simpl in Hr.
  rewrite list_lookup_fmap, Htd in Hr. injection Hr as <-.
  assert (Hl : t = 0%R \/ t = 1%R).
  { apply (one_hot_entries mz test_data i j t Hoh). unfold entry.
    by rewrite Hi. }
  rewrite (np_round_label t Hl). unfold np_not_equal.
  by destruct (Req_dec_T t t).
Qed.

(** With fading and noise switched off (every variate 0) and a network
    that reproduces the one-hot test set, every point of the sweep has
    error rate exactly 0. *)
Theorem sweep_ber_perfect_and_quiet (h : Hyper) (predict : array2 -> array2)
    (test_data : array2) (g : RandomState) :
  valid_hyper h -> (0 < size_test_data h)%Z -> (start h <= end_ h)%Z ->
  silent g ->
  has_shape test_data (Z.to_nat (size_test_data h)) (Z.to_nat (M h)) ->
  Forall (one_hot (M h)) test_data ->
  predict test_data = test_data ->
  exists g' : RandomState,
    sweep_ber h predict test_data g
    = inr (replicate (Z.to_nat (2 * (end_ h - start h) + 1)) (Finite 0), g').
Proof.
  intros Hv Hsize Hse Hg Ht Hoh Hpred. eexists.
  rewrite sweep_ber_spec; [|done | lia | done | done | by rewrite Hpred].
  f_equal. f_equal. apply list_eq. intros i.
  rewrite list_lookup_imap.
  destruct (half_dB_steps h !! i) as [snr_dB|] eqn:Hi; simpl.
  - assert (Hlt : (i < Z.to_nat (2 * (end_ h - start h) + 1))%nat).
    { apply lookup_lt_Some in Hi. by rewrite length_half_dB_steps in Hi. }
    rewrite lookup_replicate_2 by done. f_equal.
    unfold point_ber. rewrite Hpred.
    rewrite sweep_signal_silent; [|by apply silent_at_point | done].
    apply (error_rate_labels_zero test_data _ _ (M h) Ht); [|done].
    destruct Hv as [HM _]. nia.
  - symmetry. apply lookup_replicate_None.
    apply lookup_ge_None in Hi. by rewrite length_half_dB_steps in Hi.
Qed.

Lemma sweep_ber_perfect_and_quiet_witness :
  exists g' : RandomState,
    sweep_ber paper (fun x => x)
      (drawn_rows paper g_silent (Z.to_nat (size_test_data paper))) g_silent
    = inr (replicate (Z.to_nat (2 * (end_ paper - start paper) + 1)) (Finite 0), g').
Proof.
  apply (sweep_ber_perfect_and_quiet paper (fun x => x)
           (drawn_rows paper g_silent (Z.to_nat (size_test_data paper))) g_silent).
  - apply valid_paper.
  - simpl. lia.
  - simpl. lia.
  - intros i. split; reflexivity.
  - apply drawn_rows_shape.
  - apply drawn_rows_one_hot.
    + intros i high Hh. simpl. apply Z.mod_pos_bound, Hh.
    + simpl. lia.
  - reflexivity.
Defined.
